(** * js-tintopia: the curve-based colour-ramp generator

    A shallow embedding of the generator of [src/js/main.js] ([hsv2hsl],
    [hsv2hsx], [hslToHex], [pointOnCurve], [generateRandomColorRamp]) and
    the properties that the specification states about it.  The page
    wiring of the file (DOM, clipboard, the demo palettes) is left out.

    Numbers.  A JavaScript number is modelled by [num]: [NaN], the two
    infinities, and the finite values, which are taken to be exact reals.
    Arithmetic on finite values is therefore exact (the rounding and the
    overflow of binary64 are idealised away, and there is a single zero),
    while division by zero and the special values follow IEEE 754 and
    ECMAScript, since the code meets them (a guard on a zero divisor, an
    infinite coordinate that is clamped, a [NaN] that is not).  The code
    rounds the result of every operation, so the properties are stated
    where the rounding does not reach them: ranges that the rounded
    operations respect, values that the code computes exactly, and, where
    a computed number is compared with a real one, equality up to [slack].

    Loop counters.  [total] and the index [i] of the loop are integers of
    [Z], injected into [num] where the code does arithmetic on them.

    Exceptions.  A function that can throw returns a [result]. *)

From Stdlib Require Import Reals Lra Lia ZArith List String Ascii Bool.
Import ListNotations.

(** ** JavaScript numbers *)

Module JS.

Inductive num : Type :=
| NaN
| Inf (negative : bool)
| Fin (r : R).

Definition of_Z (z : Z) : num := Fin (IZR z).

Definition Rneg_b (r : R) : bool := if Rlt_dec r 0 then true else false.
Definition Rzero_b (r : R) : bool := if Req_dec_T r 0 then true else false.

Definition neg (x : num) : num :=
  match x with
  | NaN => NaN
  | Inf s => Inf (negb s)
  | Fin r => Fin (- r)
  end.

(** [x + y]: on finite values the exact sum, which the code rounds to
    binary64. *)
Definition add (x y : num) : num :=
  match x, y with
  | NaN, _ | _, NaN => NaN
  | Inf s, Inf t => if Bool.eqb s t then Inf s else NaN
  | Inf s, Fin _ | Fin _, Inf s => Inf s
  | Fin a, Fin b => Fin (a + b)
  end.

Definition sub (x y : num) : num := add x (neg y).

(** [x * y]: on finite values the exact product, which the code rounds. *)
Definition mul (x y : num) : num :=
  match x, y with
  | NaN, _ | _, NaN => NaN
  | Inf s, Inf t => Inf (xorb s t)
  | Inf s, Fin r | Fin r, Inf s =>
      if Rzero_b r then NaN else Inf (xorb s (Rneg_b r))
  | Fin a, Fin b => Fin (a * b)
  end.

Definition div (x y : num) : num :=
  match x, y with
  | NaN, _ | _, NaN => NaN
  | Inf _, Inf _ => NaN
  | Inf s, Fin r => Inf (xorb s (Rneg_b r))
  | Fin _, Inf _ => Fin 0
  | Fin a, Fin b =>
      if Rzero_b b
      then (if Rzero_b a then NaN else Inf (Rneg_b a))
      else Fin (a / b)
  end.

(** [x < y]; every comparison with [NaN] is false. *)
Definition lt (x y : num) : bool :=
  match x, y with
  | NaN, _ | _, NaN => false
  | Inf s, Inf t => s && negb t
  | Inf s, Fin _ => s
  | Fin _, Inf t => negb t
  | Fin a, Fin b => if Rlt_dec a b then true else false
  end.

Definition gt (x y : num) : bool := lt y x.

(** [x === y] on numbers. *)
Definition strict_eq (x y : num) : bool :=
  match x, y with
  | Inf s, Inf t => Bool.eqb s t
  | Fin a, Fin b => if Req_dec_T a b then true else false
  | _, _ => false
  end.

(** ToBoolean on a number: zero and [NaN] are falsy. *)
Definition truthy (x : num) : bool :=
  match x with
  | NaN => false
  | Inf _ => true
  | Fin r => negb (Rzero_b r)
  end.

(** Truncation toward zero of a real. *)
Definition Ztrunc (r : R) : Z :=
  if Rlt_dec r 0 then (- Zfloor (- r))%Z else Zfloor r.

(** [n % d], the remainder with the sign of the dividend. *)
Definition rem (n d : num) : num :=
  match n, d with
  | NaN, _ | _, NaN => NaN
  | Inf _, _ => NaN
  | Fin a, Inf _ => Fin a
  | Fin a, Fin b =>
      if Rzero_b b then NaN
      else if Rzero_b a then Fin a
      else Fin (a - b * IZR (Ztrunc (a / b)))
  end.

(** *** The [Math] object *)

Definition Math_PI : num := Fin PI.

Definition Math_min (x y : num) : num :=
  match x, y with
  | NaN, _ | _, NaN => NaN
  | _, _ => if lt y x then y else x
  end.

Definition Math_max (x y : num) : num :=
  match x, y with
  | NaN, _ | _, NaN => NaN
  | _, _ => if lt x y then y else x
  end.

Definition Math_abs (x : num) : num :=
  match x with
  | NaN => NaN
  | Inf _ => Inf false
  | Fin r => Fin (Rabs r)
  end.

Definition Math_sign (x : num) : num :=
  match x with
  | NaN => NaN
  | Inf s => Fin (if s then -1 else 1)
  | Fin r => Fin (if Rlt_dec r 0 then -1 else if Rlt_dec 0 r then 1 else 0)
  end.

(** [Math.cos] and [Math.sin]: on a finite argument the exact cosine and
    sine, which the code approximates in binary64 (at [Math_PI / 2] the
    cosine is 0 here, and about 6.1e-17 in the code). *)
Definition Math_cos (x : num) : num :=
  match x with
  | Fin r => Fin (cos r)
  | _ => NaN
  end.

Definition Math_sin (x : num) : num :=
  match x with
  | Fin r => Fin (sin r)
  | _ => NaN
  end.

(** Nearest integer, ties toward +Infinity. *)
Definition Math_round (x : num) : num :=
  match x with
  | Fin r => Fin (IZR (Zfloor (r + 1 / 2)))
  | _ => x
  end.

Definition is_integer (r : R) : bool :=
  if Req_dec_T (IZR (Zfloor r)) r then true else false.

Definition is_odd_integer (r : R) : bool :=
  is_integer r && Z.odd (Zfloor r).

(** [Math.pow(base, exponent)] and [base ** exponent], case by case as in
    ECMAScript's Number::exponentiate; the last case is the mathematical
    power. *)
Definition Math_pow (base exponent : num) : num :=
  match exponent with
  | NaN => NaN
  | Fin e =>
      if Rzero_b e then Fin 1
      else
        match base with
        | NaN => NaN
        | Inf false => if Rlt_dec 0 e then Inf false else Fin 0
        | Inf true =>
            if Rlt_dec 0 e then Inf (is_odd_integer e) else Fin 0
        | Fin b =>
            if Rzero_b b then (if Rlt_dec 0 e then Fin 0 else Inf false)
            else if Rlt_dec 0 b then Fin (Rpower b e)
            else if is_integer e
                 then Fin (if Z.odd (Zfloor e)
                           then - Rpower (- b) e else Rpower (- b) e)
                 else NaN
        end
  | Inf s =>
      match base with
      | NaN => NaN
      | Inf _ => if s then Fin 0 else Inf false
      | Fin b =>
          if Rzero_b b then (if s then Inf false else Fin 0)
          else if Rlt_dec 1 (Rabs b) then (if s then Fin 0 else Inf false)
          else if Rlt_dec (Rabs b) 1 then (if s then Inf false else Fin 0)
          else NaN
      end
  end.

(** *** [Number.prototype.toString(16)] on an integer *)

Definition hexDigit (d : Z) : ascii :=
  nth (Z.to_nat d)
      (list_ascii_of_string "0123456789abcdef") "0"%char.

Fixpoint hexDigits (fuel : nat) (n : Z) (acc : string) : string :=
  match fuel with
  | O => acc
  | S fuel' =>
      let acc' := String (hexDigit (n mod 16)) acc in
      if (n / 16 =? 0)%Z then acc' else hexDigits fuel' (n / 16) acc'
  end.

Definition toString16_Z (z : Z) : string :=
  if (z <? 0)%Z
  then ("-" ++ hexDigits (S (Z.to_nat (Z.log2 (- z)))) (- z) "")%string
  else hexDigits (S (Z.to_nat (Z.log2 z))) z "".

(** Used on the results of [Math_round] only, which are integers. *)
Definition toString16 (x : num) : string :=
  match x with
  | NaN => "NaN"
  | Inf false => "Infinity"
  | Inf true => "-Infinity"
  | Fin r => toString16_Z (Zfloor r)
  end.

End JS.

Import JS.

Declare Scope num_scope.
Delimit Scope num_scope with num.
Bind Scope num_scope with num.
Infix "+" := add : num_scope.
Infix "-" := sub : num_scope.
Infix "*" := mul : num_scope.
Infix "/" := div : num_scope.
Infix "%%" := rem (at level 40, left associativity) : num_scope.
Infix "<?" := lt : num_scope.
Infix ">?" := gt : num_scope.
Infix "===" := strict_eq (at level 70) : num_scope.
Notation "- x" := (neg x) : num_scope.

(** ** Values, errors and results *)

(** What a caller can pass as [curveMethod]: a string, a function from a
    number to a pair, or some other value (a number, for one). *)
Inductive jsval : Type :=
| VString (s : string)
| VFunction (f : num -> num * num)
| VNumber (n : num).

(** [v === "s"] for a string literal: only a string is strictly equal to it. *)
Definition is_string (v : jsval) (s : string) : bool :=
  match v with
  | VString t => String.eqb t s
  | _ => false
  end.

(** The exceptions the code can raise: the [Error] that [pointOnCurve]
    throws on an unsupported [curveMethod], and the [TypeError] of calling
    a value that is not a function. *)
Inductive exn : Type :=
| InvalidCurveMethod
| TypeError.

Inductive result (A : Type) : Type :=
| Ok (a : A)
| Throw (e : exn).
Arguments Ok {A} a.
Arguments Throw {A} e.

Definition bind {A B : Type} (r : result A) (k : A -> result B) : result B :=
  match r with
  | Ok a => k a
  | Throw e => Throw e
  end.

Notation "x <- r ;; k" := (bind r (fun x => k))
  (at level 61, r at next level, right associativity).
Notation "' p <- r ;; k" := (bind r (fun x => let p := x in k))
  (at level 61, p pattern, r at next level, right associativity).

(** Calling [callee(arg)]: a [TypeError] unless [callee] is a function. *)
Definition call (callee : jsval) (arg : num) : result (num * num) :=
  match callee with
  | VFunction f => Ok (f arg)
  | _ => Throw TypeError
  end.

(** A parameter with a default: the default stands for an argument (or a
    property) that is absent. *)
Definition or_default {A : Type} (o : option A) (d : A) : A :=
  match o with
  | Some a => a
  | None => d
  end.

Definition Color : Type := (num * num * num)%type.
Definition hue_of (c : Color) : num := fst (fst c).
Definition sat_of (c : Color) : num := snd (fst c).
Definition lum_of (c : Color) : num := snd c.

Local Open Scope num_scope.

(** ** The colour-model converter *)

Definition hsv2hsl (hue saturation value : num) : Color :=
  let lightness := value - (value * saturation) / Fin 2 in
  let minLightness := Math_min lightness (Fin 1 - lightness) in
  (hue,
   if truthy minLightness then (value - lightness) / minLightness else Fin 0,
   lightness).

Definition hsv2hsx (hue saturation value : num) (mode : jsval) : Color :=
  if is_string mode "hsl"
  then hsv2hsl hue saturation value
  else (hue, saturation, value).

(** ** The hex encoder *)

Definition calculateComponent (primary secondary temporary : num) : num :=
  let temporary :=
    if temporary <? Fin 0 then temporary + Fin 1 else temporary in
  let temporary :=
    if temporary >? Fin 1 then temporary - Fin 1 else temporary in
  if temporary <? Fin 1 / Fin 6
  then primary + (secondary - primary) * Fin 6 * temporary
  else if temporary <? Fin 1 / Fin 2 then secondary
  else if temporary <? Fin 2 / Fin 3
  then primary + (secondary - primary) * (Fin 2 / Fin 3 - temporary) * Fin 6
  else primary.

Definition toHex (component : num) : string :=
  let hex := toString16 (Math_round (component * Fin 255)) in
  if (String.length hex =? 1)%nat then ("0" ++ hex)%string else hex.

Definition hslToHex (hue saturation lightness : num) : string :=
  let hue := hue / Fin 360 in
  let saturation := saturation / Fin 100 in
  let lightness := lightness / Fin 100 in
  let '(red, green, blue) :=
    if saturation === Fin 0
    then (lightness, lightness, lightness)
    else
      let secondaryComponent :=
        if lightness <? Fin 0.5
        then lightness * (Fin 1 + saturation)
        else lightness + saturation - lightness * saturation in
      let primaryComponent := Fin 2 * lightness - secondaryComponent in
      (calculateComponent primaryComponent secondaryComponent
         (hue + Fin 1 / Fin 3),
       calculateComponent primaryComponent secondaryComponent hue,
       calculateComponent primaryComponent secondaryComponent
         (hue - Fin 1 / Fin 3)) in
  ("#" ++ toHex red ++ toHex green ++ toHex blue)%string.

(** ** The curve sampler *)

(** The [switch] compares [curveMethod] with each label by [===]; the label
    ["function"] is a string like the others, so a function value reaches
    [default], and the string ["function"] reaches a call of a string. *)
Definition pointOnCurve (curveMethod : jsval) (i total curveAccent : num)
    (min max : option (num * num)) : result (num * num) :=
  let min := or_default min (Fin 0, Fin 0) in
  let max := or_default max (Fin 1, Fin 1) in
  let limit := Math_PI / Fin 2 in
  let slice := limit / total in
  let percentile := i / total in
  '(x, y) <-
    (if is_string curveMethod "lame" then
       let t := percentile * limit in
       let exp := Fin 2 / (Fin 2 + Fin 20 * curveAccent) in
       let cosT := Math_cos t in
       let sinT := Math_sin t in
       Ok (Math_sign cosT * Math_pow (Math_abs cosT) exp,
           Math_sign sinT * Math_pow (Math_abs sinT) exp)
     else if is_string curveMethod "arc" then
       let y := Math_cos (- Math_PI / Fin 2 + i * slice + curveAccent) in
       let x := Math_sin (Math_PI / Fin 2 + i * slice - curveAccent) in
       Ok (x, y)
     else if is_string curveMethod "pow" then
       Ok (Math_pow (Fin 1 - percentile) (Fin 1 - curveAccent),
           Math_pow percentile (Fin 1 - curveAccent))
     else if is_string curveMethod "powY" then
       Ok (Math_pow (Fin 1 - percentile) curveAccent,
           Math_pow percentile (Fin 1 - curveAccent))
     else if is_string curveMethod "powX" then
       Ok (Math_pow percentile curveAccent,
           Math_pow percentile (Fin 1 - curveAccent))
     else if is_string curveMethod "function" then
       px <- call curveMethod percentile ;;
       py <- call curveMethod percentile ;;
       Ok (fst px, snd py)
     else Throw InvalidCurveMethod) ;;
  let x := fst min + Math_min (Math_max x (Fin 0)) (Fin 1) * (fst max - fst min) in
  let y := snd min + Math_min (Math_max y (Fin 0)) (Fin 1) * (snd max - snd min) in
  Ok (x, y).

(** ** The ramp generator *)

(** The configuration object a caller passes: every property is optional,
    [None] standing for a property that is absent (or [undefined]). *)
Module Config.
Record t : Type := make {
  total : option Z;
  centerHue : option num;
  hueCycle : option num;
  offsetTint : option num;
  offsetShade : option num;
  curveAccent : option num;
  tintShadeHueShift : option num;
  curveMethod : option jsval;
  offsetCurveModTint : option num;
  offsetCurveModShade : option num;
  minSaturationLight : option (num * num);
  maxSaturationLight : option (num * num);
  colorModel : option jsval
}.

(** The object [{}]. *)
Definition empty : t :=
  make None None None None None None None None None None None None None.
End Config.

(** The bindings of the destructured parameter, inside the function. *)
Record Bindings : Type := {
  total : Z;
  centerHue : num;
  hueCycle : num;
  offsetTint : num;
  offsetShade : num;
  curveAccent : num;
  tintShadeHueShift : num;
  curveMethod : jsval;
  offsetCurveModTint : num;
  offsetCurveModShade : num;
  minSaturationLight : num * num;
  maxSaturationLight : num * num;
  colorModel : jsval
}.

(** The destructuring pattern with its defaults.  The two copies of the
    function in the repository differ in the default of [total] only, which
    is the parameter [defaultTotal] here. *)
Definition destructure (defaultTotal : Z) (c : Config.t) : Bindings := {|
  total := or_default (Config.total c) defaultTotal;
  centerHue := or_default (Config.centerHue c) (Fin 0);
  hueCycle := or_default (Config.hueCycle c) (Fin 0.3);
  offsetTint := or_default (Config.offsetTint c) (Fin 0.1);
  offsetShade := or_default (Config.offsetShade c) (Fin 0.1);
  curveAccent := or_default (Config.curveAccent c) (Fin 0);
  tintShadeHueShift := or_default (Config.tintShadeHueShift c) (Fin 0.1);
  curveMethod := or_default (Config.curveMethod c) (VString "arc");
  offsetCurveModTint := or_default (Config.offsetCurveModTint c) (Fin 0.03);
  offsetCurveModShade := or_default (Config.offsetCurveModShade c) (Fin 0.03);
  minSaturationLight :=
    or_default (Config.minSaturationLight c) (Fin 0, Fin 0);
  maxSaturationLight :=
    or_default (Config.maxSaturationLight c) (Fin 1, Fin 1);
  colorModel := or_default (Config.colorModel c) (VString "hsl")
|}.

(** The three arrays the loop pushes to. *)
Record Arrays : Type := {
  baseColors : list Color;
  lightColors : list Color;
  darkColors : list Color
}.

Definition no_colors : Arrays :=
  {| baseColors := []; lightColors := []; darkColors := [] |}.

Record Ramp : Type := {
  light : list Color;
  dark : list Color;
  base : list Color;
  all : list Color
}.

Section Generator.

Variable b : Bindings.

(** The hue of step [i]. *)
Definition hue_at (i : Z) : num :=
  (Fin 360 +
     (Fin (-180) * hueCycle b +
        (centerHue b + of_Z i * (Fin 360 / of_Z (total b + 1)) * hueCycle b)))
  %% Fin 360.

(** One sample of the curve at step [i], with the given accent. *)
Definition sample (i : Z) (accent : num) : result (num * num) :=
  pointOnCurve (curveMethod b) (of_Z i) (of_Z (total b + 1)) accent
    (Some (minSaturationLight b)) (Some (maxSaturationLight b)).

Definition tint_of (h : num) (hslLight : Color) : Color :=
  ((h + Fin 360 * tintShadeHueShift b) %% Fin 360,
   sat_of hslLight - offsetTint b,
   lum_of hslLight + offsetTint b).

Definition shade_of (h : num) (hslDark : Color) : Color :=
  ((Fin 360 + (h - Fin 360 * tintShadeHueShift b)) %% Fin 360,
   sat_of hslDark - offsetShade b,
   lum_of hslDark - offsetShade b).

(** The body of the [for] loop at index [i]. *)
Definition iteration (i : Z) (a : Arrays) : result Arrays :=
  '(x, y) <- sample i (curveAccent b) ;;
  let h := hue_at i in
  let hsl := hsv2hsx h x y (colorModel b) in
  let baseColors' := baseColors a ++ [hsl] in
  '(xl, yl) <- sample i (curveAccent b + offsetCurveModTint b) ;;
  let hslLight := hsv2hsx h xl yl (colorModel b) in
  let lightColors' := lightColors a ++ [tint_of h hslLight] in
  '(xd, yd) <- sample i (curveAccent b - offsetCurveModShade b) ;;
  let hslDark := hsv2hsx h xd yd (colorModel b) in
  let darkColors' := darkColors a ++ [shade_of h hslDark] in
  Ok {| baseColors := baseColors';
        lightColors := lightColors';
        darkColors := darkColors' |}.

(** [for (let i = ...; i < total + 1; i++) { ... }], from index [i] on;
    [steps] bounds the number of iterations left. *)
Fixpoint for_loop (steps : nat) (i : Z) (a : Arrays) : result Arrays :=
  match steps with
  | O => Ok a
  | S steps' =>
      if (i <? total b + 1)%Z
      then a' <- iteration i a ;; for_loop steps' (i + 1) a'
      else Ok a
  end.

(** The body of [generateRandomColorRamp].  The loop runs from 1 and its
    guard fails at [total + 1] at the latest, within [total + 1] tests of
    the guard: [for_loop_steps] below shows that the bound is never what
    stops it. *)
Definition generate : result Ramp :=
  a <- for_loop (S (Z.to_nat (total b))) 1 no_colors ;;
  Ok {| light := lightColors a;
        dark := darkColors a;
        base := baseColors a;
        all := lightColors a ++ baseColors a ++ darkColors a |}.

End Generator.

(** The repository holds two copies of [generateRandomColorRamp]: the one
    of [src/js/main.js], and another one that differs from it in the
    default of [total] only. *)
Inductive copy : Type :=
| main_js
| other_copy.

Definition default_total (f : copy) : Z :=
  match f with
  | main_js => 198
  | other_copy => 3
  end.

Definition generateRandomColorRamp (f : copy) (c : Config.t) : result Ramp :=
  generate (destructure (default_total f) c).

(** ** The demo palette and the swatches *)

(** The configuration of [colorPaletteRamp], the palette that the page
    shows. *)
Definition colorPaletteConfig : Config.t :=
  Config.make (Some 13%Z) (Some (Fin 0)) (Some (Fin 0)) (Some (Fin 0))
    (Some (Fin 0)) (Some (Fin 0.03)) (Some (Fin 0)) (Some (VString "lame"))
    (Some (Fin 0.036)) (Some (Fin 0.036))
    (Some (Fin 0, Fin 0.09)) (Some (Fin 1, Fin 1)) None.

(** [array.at(-1)]: the last element, [undefined] on an empty array. *)
Definition at_last {A : Type} (l : list A) : option A :=
  match rev l with
  | [] => None
  | x :: _ => Some x
  end.

(** [colorPaletteModified], as a function of the ramp [colorPaletteRamp]
    that it reads (its own parameter is unused).  [light] is the very array
    that the ramp holds, so the pushes extend the ramp's [light]; [all] is
    an array of its own (the generator built it by spreading), which the
    pushes leave as it was.  Destructuring [undefined], the last element of
    an empty array, is a [TypeError]. *)
Definition colorPaletteModified (colorPaletteRamp : Ramp) : result Ramp :=
  let light := light colorPaletteRamp in
  match at_last light with
  | None => Throw TypeError
  | Some lastElement =>
      let hue := hue_of lastElement in
      let tonalValues :=
        [ (hue, Fin 1.0, Fin 0.9);
          (hue, Fin 1.0, Fin 0.95);
          (hue, Fin 1.0, Fin 0.98);
          (hue, Fin 1.0, Fin 1.0) ] in
      let light :=
        fold_left (fun light tonalValue => (light ++ [tonalValue])%list)
          tonalValues light in
      Ok {| light := light;
            dark := dark colorPaletteRamp;
            base := base colorPaletteRamp;
            all := all colorPaletteRamp |}
  end.

(** The colour string that [buildColorElement] computes for a swatch; the
    element itself and its click handler are page wiring. *)
Definition hexColor (color : Color) : string :=
  let '(hue, saturation, lightness) := color in
  hslToHex hue (saturation * Fin 100) (lightness * Fin 100).

(** ** Vocabulary of the statements *)

(** The five names of the built-in curves. *)
Definition is_builtin (v : jsval) : bool :=
  is_string v "lame" || is_string v "arc" || is_string v "pow"
  || is_string v "powY" || is_string v "powX".

Definition is_callable (v : jsval) : bool :=
  match v with
  | VFunction _ => true
  | _ => false
  end.

Definition empty_ramp : Ramp :=
  {| light := []; dark := []; base := []; all := [] |}.

(** What one iteration pushes at index [i]: the three colours computed from
    the three samples of the curve. *)
Definition pushed_at (b : Bindings) (i : Z) (cb cl cd : Color) : Prop :=
  exists x y xl yl xd yd,
    sample b i (curveAccent b) = Ok (x, y) /\
    sample b i (curveAccent b + offsetCurveModTint b) = Ok (xl, yl) /\
    sample b i (curveAccent b - offsetCurveModShade b) = Ok (xd, yd) /\
    cb = hsv2hsx (hue_at b i) x y (colorModel b) /\
    cl = tint_of b (hue_at b i) (hsv2hsx (hue_at b i) xl yl (colorModel b)) /\
    cd = shade_of b (hue_at b i) (hsv2hsx (hue_at b i) xd yd (colorModel b)).

(** The number of indices from [i] to [total]. *)
Definition remaining (b : Bindings) (i : Z) : nat :=
  Z.to_nat (total b + 1 - i).

(** The configuration [{total: t, curveMethod: m}], either property
    possibly absent. *)
Definition config (t : option Z) (m : option jsval) : Config.t :=
  Config.make t None None None None None None m None None None None None.

(** [{total: 3}] *)
Definition config_total3 : Config.t := config (Some 3%Z) None.

(** [{total: 3, curveMethod: "bogus"}] and [{total: 0, curveMethod: "bogus"}] *)
Definition config_bogus3 : Config.t :=
  config (Some 3%Z) (Some (VString "bogus")).
Definition config_bogus0 : Config.t :=
  config (Some 0%Z) (Some (VString "bogus")).

(** [{total: 3, curveMethod: p => [p, 1 - p]}] *)
Definition config_callable3 : Config.t :=
  config (Some 3%Z) (Some (VFunction (fun p => (p, Fin 1 - p)))).

(** The entries of index [i] (counted from 1) of a ramp [r], as the
    specification gives them: the tint and the shade are computed from the
    base hue [h] of the same index and from a fresh sample of the curve,
    at the accent moved by [offsetCurveModTint] up or by
    [offsetCurveModShade] down. *)
Definition entries_at (b : Bindings) (r : Ramp) (i : Z) : Prop :=
  let h :=
    (Fin 360 +
       (Fin (-180) * hueCycle b +
          (centerHue b + of_Z i * (Fin 360 / of_Z (total b + 1)) * hueCycle b)))
    %% Fin 360 in
  exists xl yl xd yd cb,
    pointOnCurve (curveMethod b) (of_Z i) (of_Z (total b + 1))
      (curveAccent b + offsetCurveModTint b)
      (Some (minSaturationLight b)) (Some (maxSaturationLight b))
    = Ok (xl, yl) /\
    pointOnCurve (curveMethod b) (of_Z i) (of_Z (total b + 1))
      (curveAccent b - offsetCurveModShade b)
      (Some (minSaturationLight b)) (Some (maxSaturationLight b))
    = Ok (xd, yd) /\
    nth_error (base r) (Z.to_nat (i - 1)) = Some cb /\
    hue_of cb = h /\
    nth_error (light r) (Z.to_nat (i - 1)) =
    Some ((h + Fin 360 * tintShadeHueShift b) %% Fin 360,
          sat_of (hsv2hsx h xl yl (colorModel b)) - offsetTint b,
          lum_of (hsv2hsx h xl yl (colorModel b)) + offsetTint b) /\
    nth_error (dark r) (Z.to_nat (i - 1)) =
    Some ((Fin 360 + (h - Fin 360 * tintShadeHueShift b)) %% Fin 360,
          sat_of (hsv2hsx h xd yd (colorModel b)) - offsetShade b,
          lum_of (hsv2hsx h xd yd (colorModel b)) - offsetShade b).

(** [{total: 1, centerHue: 350, hueCycle: 1}] *)
Definition config_hue_wrap : Config.t :=
  Config.make (Some 1%Z) (Some (Fin 350)) (Some (Fin 1))
    None None None None None None None None None None.

(** [{total: 3, centerHue: -400, hueCycle: 0}] *)
Definition config_negative_hue : Config.t :=
  Config.make (Some 3%Z) (Some (Fin (-400))) (Some (Fin 0))
    None None None None None None None None None None.

(** The rendering of a channel [z] of 0..255: two lowercase hexadecimal
    digits, the first one 0 below 16. *)
Definition hex2 (z : Z) : string :=
  String (hexDigit (z / 16)) (String (hexDigit (z mod 16)) EmptyString).

(** The room that a statement leaves for the rounding of binary64, where it
    compares a number that the code computes with a real number: the code
    rounds the result of every operation, by about one part in 10^16, which
    the arithmetic on [Fin] does not show. *)
Definition slack : R := (1 / 1000000000)%R.

(** [x] and [y] are equal up to [slack]. *)
Definition close (x y : R) : Prop := (Rabs (x - y) <= slack)%R.

(** [z] is the integer nearest to [x], up to [slack] at a tie. *)
Definition nearest (z : Z) (x : R) : Prop :=
  (Rabs (IZR z - x) <= 1 / 2 + slack)%R.

(** The standard conversion of HSL to RGB, for a hue [h] in degrees of
    [0, 360) and a saturation [s] and a lightness [l] of [0, 1]: the channel
    of offset [n] (0 for red, 8 for green, 4 for blue) is
    [l - a * max(-1, min(k - 3, 9 - k, 1))], with [k = (n + h / 30) mod 12]
    and [a = s * min(l, 1 - l)]. *)
Definition rgb_channel (n h s l : R) : R :=
  let k := (n + h / 30)%R in
  let k := if Rlt_dec k 12 then k else (k - 12)%R in
  let a := (s * Rmin l (1 - l))%R in
  (l - a * Rmax (-1) (Rmin (Rmin (k - 3) (9 - k)) 1))%R.

Local Open Scope list_scope.

(** * Properties *)

(** ** The curve sampler: which values of [curveMethod] it accepts *)

Lemma pointOnCurve_builtin v i t a mn mx :
  is_builtin v = true -> exists p, pointOnCurve v i t a mn mx = Ok p.
Proof.
  unfold is_builtin, pointOnCurve. intros H.
  destruct (is_string v "lame"); [eexists; reflexivity|].
  destruct (is_string v "arc"); [eexists; reflexivity|].
  destruct (is_string v "pow"); [eexists; reflexivity|].
  destruct (is_string v "powY"); [eexists; reflexivity|].
  destruct (is_string v "powX"); [eexists; reflexivity|].
  discriminate H.
Qed.

Lemma pointOnCurve_not_builtin v i t a mn mx :
  is_builtin v = false ->
  pointOnCurve v i t a mn mx =
  if is_string v "function" then Throw TypeError else Throw InvalidCurveMethod.
Proof.
  unfold is_builtin, pointOnCurve. intros H.
  repeat (apply orb_false_elim in H; destruct H as [H ?]).
  repeat match goal with E : is_string _ _ = false |- _ => rewrite E; clear E end.
  destruct v as [s | f | n]; cbn [is_string].
  - destruct (s =? "function")%string; reflexivity.
  - reflexivity.
  - reflexivity.
Qed.

(** ** The loop of the generator *)

Section Loop.

Variable b : Bindings.

Lemma iteration_builtin i a :
  is_builtin (curveMethod b) = true ->
  exists cb cl cd,
    pushed_at b i cb cl cd /\
    iteration b i a =
    Ok {| baseColors := baseColors a ++ [cb];
          lightColors := lightColors a ++ [cl];
          darkColors := darkColors a ++ [cd] |}.
Proof.
  intros H. unfold pushed_at, iteration, sample.
  destruct (pointOnCurve_builtin _ (of_Z i) (of_Z (total b + 1)) (curveAccent b)
              (Some (minSaturationLight b)) (Some (maxSaturationLight b)) H)
    as [[x y] E1].
  destruct (pointOnCurve_builtin _ (of_Z i) (of_Z (total b + 1))
              (curveAccent b + offsetCurveModTint b)
              (Some (minSaturationLight b)) (Some (maxSaturationLight b)) H)
    as [[xl yl] E2].
  destruct (pointOnCurve_builtin _ (of_Z i) (of_Z (total b + 1))
              (curveAccent b - offsetCurveModShade b)
              (Some (minSaturationLight b)) (Some (maxSaturationLight b)) H)
    as [[xd yd] E3].
  rewrite E1, E2, E3. cbn [bind].
  do 3 eexists. split; [|reflexivity].
  exists x, y, xl, yl, xd, yd. repeat split; reflexivity.
Qed.

Lemma iteration_Ok_inv i a a' :
  iteration b i a = Ok a' ->
  exists cb cl cd,
    pushed_at b i cb cl cd /\
    baseColors a' = baseColors a ++ [cb] /\
    lightColors a' = lightColors a ++ [cl] /\
    darkColors a' = darkColors a ++ [cd].
Proof.
  unfold iteration, pushed_at.
  destruct (sample b i (curveAccent b)) as [[x y]|e] eqn:E1;
    cbn [bind]; [|discriminate].
  destruct (sample b i (curveAccent b + offsetCurveModTint b))
    as [[xl yl]|e] eqn:E2; cbn [bind]; [|discriminate].
  destruct (sample b i (curveAccent b - offsetCurveModShade b))
    as [[xd yd]|e] eqn:E3; cbn [bind]; [|discriminate].
  intros H. injection H as <-. cbn.
  do 3 eexists. split; [|repeat split; reflexivity].
  exists x, y, xl, yl, xd, yd. repeat split; reflexivity.
Qed.

Lemma iteration_not_builtin i a :
  is_builtin (curveMethod b) = false ->
  iteration b i a =
  if is_string (curveMethod b) "function"
  then Throw TypeError else Throw InvalidCurveMethod.
Proof.
  intros H. unfold iteration, sample.
  rewrite (pointOnCurve_not_builtin _ _ _ _ _ _ H).
  destruct (is_string (curveMethod b) "function"); reflexivity.
Qed.

Lemma remaining_guard i :
  (i <? total b + 1)%Z = true -> remaining b i = S (remaining b (i + 1)).
Proof.
  unfold remaining. intros H. apply Z.ltb_lt in H.
  rewrite <- Z2Nat.inj_succ by lia. f_equal. lia.
Qed.

Lemma remaining_done i :
  (i <? total b + 1)%Z = false -> remaining b i = O.
Proof.
  unfold remaining. intros H. apply Z.ltb_ge in H.
  lia.
Qed.

(** The bound on the number of iterations is never what stops the loop:
    any bound above the number of remaining b indices gives the same run. *)
Lemma for_loop_steps steps i a :
  (remaining b i < steps)%nat ->
  for_loop b steps i a = for_loop b (S (remaining b i)) i a.
Proof.
  revert i a. induction steps as [|steps IH]; intros i a Hlt; [lia|].
  cbn [for_loop].
  destruct (i <? total b + 1)%Z eqn:G; [|reflexivity].
  rewrite (remaining_guard _ G) in Hlt |- *.
  destruct (iteration b i a) as [a1|e]; cbn [bind]; [|reflexivity].
  rewrite IH by lia. reflexivity.
Qed.

Lemma for_loop_builtin steps i a :
  is_builtin (curveMethod b) = true ->
  exists a', for_loop b steps i a = Ok a'.
Proof.
  intros H. revert i a. induction steps as [|steps IH]; intros i a.
  - eexists; reflexivity.
  - cbn [for_loop]. destruct (i <? total b + 1)%Z; [|eexists; reflexivity].
    destruct (iteration_builtin i a H) as (cb & cl & cd & _ & E).
    rewrite E. cbn [bind]. apply IH.
Qed.

Lemma for_loop_not_builtin steps i a :
  is_builtin (curveMethod b) = false ->
  (i <= total b)%Z ->
  for_loop b (S steps) i a =
  if is_string (curveMethod b) "function"
  then Throw TypeError else Throw InvalidCurveMethod.
Proof.
  intros H Hi. cbn [for_loop].
  replace (i <? total b + 1)%Z with true by (symmetry; apply Z.ltb_lt; lia).
  rewrite (iteration_not_builtin _ _ H).
  destruct (is_string (curveMethod b) "function"); reflexivity.
Qed.

(** What a run of the loop from index [i] leaves in the arrays: one entry
    per index from [i] to [total], in order, after what was there. *)
Lemma for_loop_spec steps i a a' :
  (remaining b i < steps)%nat ->
  for_loop b steps i a = Ok a' ->
  exists nb nl nd,
    baseColors a' = baseColors a ++ nb /\
    lightColors a' = lightColors a ++ nl /\
    darkColors a' = darkColors a ++ nd /\
    List.length nb = remaining b i /\
    List.length nl = remaining b i /\
    List.length nd = remaining b i /\
    forall k, (i <= k <= total b)%Z ->
      exists cb cl cd,
        pushed_at b k cb cl cd /\
        nth_error nb (Z.to_nat (k - i)) = Some cb /\
        nth_error nl (Z.to_nat (k - i)) = Some cl /\
        nth_error nd (Z.to_nat (k - i)) = Some cd.
Proof.
  revert i a a'. induction steps as [|steps IH]; intros i a a' Hlt; [lia|].
  cbn [for_loop].
  destruct (i <? total b + 1)%Z eqn:G.
  - rewrite (remaining_guard _ G) in Hlt |- *.
    destruct (iteration b i a) as [a1|e] eqn:E; cbn [bind]; [|discriminate].
    intros Hrun.
    destruct (iteration_Ok_inv _ _ _ E) as (cb & cl & cd & Hp & Eb & El & Ed).
    assert (Hlt' : (remaining b (i + 1) < steps)%nat) by lia.
    destruct (IH (i + 1)%Z a1 a' Hlt' Hrun)
      as (nb & nl & nd & Hb & Hl & Hd & Lb & Ll & Ld & Hk).
    exists (cb :: nb), (cl :: nl), (cd :: nd).
    rewrite Hb, Hl, Hd, Eb, El, Ed, <- !app_assoc. cbn [app List.length].
    repeat split; try reflexivity; try congruence.
    intros k Hk'. destruct (Z.eq_dec k i) as [->|Hne].
    + rewrite Z.sub_diag. exists cb, cl, cd. repeat split; assumption.
    + assert (Hk'' : (i + 1 <= k <= total b)%Z) by lia.
      destruct (Hk k Hk'') as (cb' & cl' & cd' & Hp' & N1 & N2 & N3).
      exists cb', cl', cd'.
      replace (Z.to_nat (k - i)) with (S (Z.to_nat (k - (i + 1)))) by lia.
      cbn [nth_error]. repeat split; assumption.
  - intros H. injection H as <-.
    rewrite (remaining_done _ G).
    exists [], [], []. rewrite !app_nil_r.
    repeat split; try reflexivity.
    intros k Hk. apply Z.ltb_ge in G. lia.
Qed.

End Loop.

(** ** The generator as a whole *)

Lemma remaining_1 b : remaining b 1 = Z.to_nat (total b).
Proof. unfold remaining. f_equal. lia. Qed.

Lemma generate_builtin b :
  is_builtin (curveMethod b) = true -> exists r, generate b = Ok r.
Proof.
  intros H. unfold generate.
  destruct (for_loop_builtin b (S (Z.to_nat (total b))) 1 no_colors H)
    as [a E].
  rewrite E. cbn [bind]. eexists; reflexivity.
Qed.

Lemma generate_nonpositive b :
  (total b <= 0)%Z -> generate b = Ok empty_ramp.
Proof.
  intros H. unfold generate. cbn [for_loop].
  replace (1 <? total b + 1)%Z with false by (symmetry; apply Z.ltb_ge; lia).
  reflexivity.
Qed.

Lemma generate_not_builtin b :
  is_builtin (curveMethod b) = false ->
  (1 <= total b)%Z ->
  generate b =
  if is_string (curveMethod b) "function"
  then Throw TypeError else Throw InvalidCurveMethod.
Proof.
  intros H Ht. unfold generate.
  rewrite (for_loop_not_builtin b _ 1 no_colors H Ht).
  destruct (is_string (curveMethod b) "function"); reflexivity.
Qed.

Lemma generate_spec b r :
  generate b = Ok r ->
  List.length (base r) = Z.to_nat (total b) /\
  List.length (light r) = Z.to_nat (total b) /\
  List.length (dark r) = Z.to_nat (total b) /\
  all r = light r ++ base r ++ dark r /\
  forall k, (1 <= k <= total b)%Z ->
    exists cb cl cd,
      pushed_at b k cb cl cd /\
      nth_error (base r) (Z.to_nat (k - 1)) = Some cb /\
      nth_error (light r) (Z.to_nat (k - 1)) = Some cl /\
      nth_error (dark r) (Z.to_nat (k - 1)) = Some cd.
Proof.
  unfold generate.
  destruct (for_loop b (S (Z.to_nat (total b))) 1 no_colors) as [a|e] eqn:E;
    cbn [bind]; [|discriminate].
  intros H. injection H as <-. cbn [base light dark all].
  assert (Hlt : (remaining b 1 < S (Z.to_nat (total b)))%nat)
    by (rewrite remaining_1; lia).
  destruct (for_loop_spec b _ _ _ _ Hlt E)
    as (nb & nl & nd & Hb & Hl & Hd & Lb & Ll & Ld & Hk).
  cbn [no_colors baseColors lightColors darkColors app] in Hb, Hl, Hd.
  rewrite remaining_1 in Lb, Ll, Ld.
  rewrite Hb, Hl, Hd. repeat split; try assumption.
Qed.

Lemma length_all (r : Ramp) n :
  List.length (base r) = n -> List.length (light r) = n ->
  List.length (dark r) = n -> all r = light r ++ base r ++ dark r ->
  List.length (all r) = (3 * n)%nat.
Proof.
  intros Hb Hl Hd ->. rewrite !length_app, Hb, Hl, Hd. lia.
Qed.

(** ** Shape of the result *)

(** C1, as amended.  For every configuration whose [curveMethod] is one of
    the five built-in names (or whose [total] is not positive),
    [generateRandomColorRamp] returns a record whose [base], [light] and
    [dark] each hold [total] colours (none when [total] is negative), and
    whose [all] is [light ++ base ++ dark], of three times that length. *)
Theorem ramp_shape (f : copy) (c : Config.t) :
  let b := destructure (default_total f) c in
  is_builtin (curveMethod b) = true \/ (total b <= 0)%Z ->
  exists r,
    generateRandomColorRamp f c = Ok r /\
    List.length (base r) = Z.to_nat (total b) /\
    List.length (light r) = Z.to_nat (total b) /\
    List.length (dark r) = Z.to_nat (total b) /\
    all r = light r ++ base r ++ dark r /\
    List.length (all r) = (3 * Z.to_nat (total b))%nat.
Proof.
  intros b H. unfold generateRandomColorRamp. fold b.
  assert (E : exists r, generate b = Ok r).
  { destruct H as [H|H].
    - apply generate_builtin, H.
    - exists empty_ramp. apply generate_nonpositive, H. }
  destruct E as [r E]. exists r. split; [exact E|].
  destruct (generate_spec b r E) as (Hb & Hl & Hd & Ha & _).
  repeat split; try assumption.
  apply length_all; assumption.
Qed.

(** With [{total: 3}] and the defaults, [base], [light] and [dark] have
    length 3 and [all] has length 9. *)
Lemma ramp_shape_total3 :
  exists r,
    generateRandomColorRamp main_js config_total3 = Ok r /\
    List.length (base r) = 3%nat /\
    List.length (light r) = 3%nat /\
    List.length (dark r) = 3%nat /\
    all r = light r ++ base r ++ dark r /\
    List.length (all r) = 9%nat.
Proof.
  exact (ramp_shape main_js config_total3 (or_introl eq_refl)).
Defined.

(** C1 as stated fails on a configuration that the generator rejects: with
    [{total: 3, curveMethod: "bogus"}] no record is returned. *)
Lemma ramp_shape_needs_supported_method :
  generateRandomColorRamp main_js config_bogus3 = Throw InvalidCurveMethod /\
  ~ exists r, generateRandomColorRamp main_js config_bogus3 = Ok r.
Proof.
  assert (E : generateRandomColorRamp main_js config_bogus3
              = Throw InvalidCurveMethod).
  { unfold generateRandomColorRamp.
    rewrite generate_not_builtin; [reflexivity|reflexivity|cbn; lia]. }
  split; [exact E|]. intros [r H]. rewrite E in H. discriminate H.
Qed.

(** ** A callable [curveMethod] *)

(** C2 (the code departs from it).  A function passed as [curveMethod] is
    never called: no label of the [switch] is strictly equal to it, so
    [pointOnCurve] throws the error of an unsupported method, and so does
    the generator at its first sample.  What reaches the case labelled
    ["function"] is the string ["function"], which cannot be called. *)
Theorem callable_curveMethod_is_rejected :
  (forall fn i t a mn mx,
     pointOnCurve (VFunction fn) i t a mn mx = Throw InvalidCurveMethod) /\
  generateRandomColorRamp main_js config_callable3
  = Throw InvalidCurveMethod /\
  (forall i t a mn mx,
     pointOnCurve (VString "function") i t a mn mx = Throw TypeError).
Proof.
  split; [|split].
  - intros. reflexivity.
  - unfold generateRandomColorRamp.
    rewrite generate_not_builtin; [reflexivity|reflexivity|cbn; lia].
  - intros. reflexivity.
Qed.

(** ** The error of an unsupported [curveMethod] *)

(** C4, as amended.  When [total] is at least 1 and [curveMethod] is
    neither one of the five built-in names nor a function (nor the string
    ["function"]), the generator throws the error of an unsupported method
    and returns no record. *)
Theorem unsupported_curveMethod_throws (f : copy) (c : Config.t) :
  let b := destructure (default_total f) c in
  is_builtin (curveMethod b) = false ->
  is_callable (curveMethod b) = false ->
  is_string (curveMethod b) "function" = false ->
  (1 <= total b)%Z ->
  generateRandomColorRamp f c = Throw InvalidCurveMethod.
Proof.
  intros b Hb _ Hf Ht. unfold generateRandomColorRamp. fold b.
  rewrite (generate_not_builtin b Hb Ht), Hf. reflexivity.
Qed.

Lemma unsupported_curveMethod_throws_bogus3 :
  generateRandomColorRamp main_js config_bogus3 = Throw InvalidCurveMethod.
Proof.
  apply (unsupported_curveMethod_throws main_js config_bogus3);
    [reflexivity | reflexivity | reflexivity | cbn; lia].
Defined.

(** C4 as stated fails when the loop does not run: with
    [{total: 0, curveMethod: "bogus"}] the generator returns the empty
    ramp and throws nothing. *)
Lemma unsupported_curveMethod_unchecked_at_total0 :
  is_builtin (VString "bogus") = false /\
  is_callable (VString "bogus") = false /\
  generateRandomColorRamp main_js config_bogus0 = Ok empty_ramp /\
  generateRandomColorRamp main_js config_bogus0 <> Throw InvalidCurveMethod.
Proof.
  assert (E : generateRandomColorRamp main_js config_bogus0 = Ok empty_ramp).
  { unfold generateRandomColorRamp. apply generate_nonpositive. cbn. lia. }
  split; [reflexivity|]. split; [reflexivity|]. split; [exact E|].
  rewrite E. discriminate.
Qed.

(** C10.  With [total] zero or negative the generator returns a record of
    four empty sequences and throws nothing, whatever [curveMethod] is: the
    method is only looked at inside the loop. *)
Theorem nonpositive_total_gives_empty_ramp (f : copy) (c : Config.t) :
  (total (destructure (default_total f) c) <= 0)%Z ->
  generateRandomColorRamp f c = Ok empty_ramp.
Proof.
  intros H. unfold generateRandomColorRamp. apply generate_nonpositive, H.
Qed.

Lemma nonpositive_total_gives_empty_ramp_bogus0 :
  is_builtin (VString "bogus") = false /\
  generateRandomColorRamp main_js config_bogus0 = Ok empty_ramp /\
  base empty_ramp = [] /\ light empty_ramp = [] /\
  dark empty_ramp = [] /\ all empty_ramp = [].
Proof.
  split; [reflexivity|]. split; [|repeat split].
  apply (nonpositive_total_gives_empty_ramp main_js config_bogus0).
  cbn. lia.
Defined.

(** ** The entries of the ramp *)

Lemma hue_of_hsv2hsx h x y m : hue_of (hsv2hsx h x y m) = h.
Proof. unfold hsv2hsx, hsv2hsl. destruct (is_string m "hsl"); reflexivity. Qed.

(** C5.  For every configuration with a built-in [curveMethod] the
    generator returns a record, and in any record [r] that it returns, for
    every [i] from 1 to [total], the [i]-th tint is
    [((h + 360 * tintShadeHueShift) % 360, s_l - offsetTint, l_l + offsetTint)]
    with [(s_l, l_l)] converted from the sample of the curve at
    [curveAccent + offsetCurveModTint], and the [i]-th shade is
    [((360 + (h - 360 * tintShadeHueShift)) % 360, s_d - offsetShade,
      l_d - offsetShade)]
    with [(s_d, l_d)] converted from the sample at
    [curveAccent - offsetCurveModShade]; [h] is the hue of the [i]-th base
    colour ([entries_at] spells this out). *)
Theorem tint_and_shade_entries (f : copy) (c : Config.t) :
  let b := destructure (default_total f) c in
  (is_builtin (curveMethod b) = true ->
   exists r, generateRandomColorRamp f c = Ok r) /\
  (forall r, generateRandomColorRamp f c = Ok r ->
   forall i, (1 <= i <= total b)%Z -> entries_at b r i).
Proof.
  intros b. split; [apply generate_builtin|].
  intros r E i Hi. unfold generateRandomColorRamp in E. fold b in E.
  destruct (generate_spec b r E) as (_ & _ & _ & _ & Hk).
  destruct (Hk i Hi) as (cb & cl & cd & Hp & Nb & Nl & Nd).
  destruct Hp as (x & y & xl & yl & xd & yd & S1 & S2 & S3 & -> & -> & ->).
  unfold sample in S2, S3. unfold entries_at. fold (hue_at b i).
  exists xl, yl, xd, yd, (hsv2hsx (hue_at b i) x y (colorModel b)).
  split; [exact S2|]. split; [exact S3|]. split; [exact Nb|].
  split; [apply hue_of_hsv2hsx|]. split; [exact Nl|exact Nd].
Qed.

Lemma tint_and_shade_entries_total3 :
  exists r,
    generateRandomColorRamp main_js config_total3 = Ok r /\
    entries_at (destructure (default_total main_js) config_total3) r 2.
Proof.
  destruct (tint_and_shade_entries main_js config_total3) as [H1 H2].
  destruct (H1 eq_refl) as [r E].
  exists r. split; [exact E|].
  apply (H2 r E 2%Z). cbn. lia.
Defined.

(** ** The defaults *)

(** C9 (the code of [src/js/main.js] departs from it).  Called with [{}],
    the generator of [src/js/main.js] takes [total] to be 198 and returns
    sequences of length 198; the other copy takes 3, the value of the
    specification's table.  Every other default is the table's, in both. *)
Theorem defaults_of_empty_configuration :
  total (destructure (default_total main_js) Config.empty) = 198%Z /\
  (exists r,
     generateRandomColorRamp main_js Config.empty = Ok r /\
     List.length (base r) = 198%nat /\
     List.length (light r) = 198%nat /\
     List.length (dark r) = 198%nat) /\
  total (destructure (default_total other_copy) Config.empty) = 3%Z /\
  (exists r,
     generateRandomColorRamp other_copy Config.empty = Ok r /\
     List.length (base r) = 3%nat /\
     List.length (light r) = 3%nat /\
     List.length (dark r) = 3%nat) /\
  forall f,
    let b := destructure (default_total f) Config.empty in
    centerHue b = Fin 0 /\
    hueCycle b = Fin 0.3 /\
    offsetTint b = Fin 0.1 /\
    offsetShade b = Fin 0.1 /\
    curveAccent b = Fin 0 /\
    tintShadeHueShift b = Fin 0.1 /\
    curveMethod b = VString "arc" /\
    offsetCurveModTint b = Fin 0.03 /\
    offsetCurveModShade b = Fin 0.03 /\
    minSaturationLight b = (Fin 0, Fin 0) /\
    maxSaturationLight b = (Fin 1, Fin 1) /\
    colorModel b = VString "hsl".
Proof.
  assert (L : forall f, exists r,
             generateRandomColorRamp f Config.empty = Ok r /\
             List.length (base r) = Z.to_nat (default_total f) /\
             List.length (light r) = Z.to_nat (default_total f) /\
             List.length (dark r) = Z.to_nat (default_total f)).
  { intros f. unfold generateRandomColorRamp.
    destruct (generate_builtin
                (destructure (default_total f) Config.empty) eq_refl)
      as [r E].
    exists r. split; [exact E|].
    destruct (generate_spec _ r E) as (Hb & Hl & Hd & _).
    repeat split; assumption. }
  split; [reflexivity|]. split; [exact (L main_js)|].
  split; [reflexivity|]. split; [exact (L other_copy)|].
  intros f b. repeat split.
Qed.

(** ** Arithmetic of [num] on finite values *)

Lemma Rzero_b_true r : r = 0%R -> Rzero_b r = true.
Proof. intros H. unfold Rzero_b. destruct (Req_dec_T r 0); [reflexivity|contradiction]. Qed.

Lemma Rzero_b_false r : r <> 0%R -> Rzero_b r = false.
Proof. intros H. unfold Rzero_b. destruct (Req_dec_T r 0); [contradiction|reflexivity]. Qed.

Lemma Rneg_b_false r : (0 <= r)%R -> Rneg_b r = false.
Proof. intros H. unfold Rneg_b. destruct (Rlt_dec r 0); [lra|reflexivity]. Qed.

Lemma div_Fin a b : b <> 0%R -> Fin a / Fin b = Fin (a / b).
Proof. intros H. cbn [div]. rewrite (Rzero_b_false _ H). reflexivity. Qed.

Lemma lt_Fin_true a b : (a < b)%R -> (Fin a <? Fin b) = true.
Proof. intros H. cbn [lt]. destruct (Rlt_dec a b); [reflexivity|contradiction]. Qed.

Lemma lt_Fin_false a b : (b <= a)%R -> (Fin a <? Fin b) = false.
Proof. intros H. cbn [lt]. destruct (Rlt_dec a b); [lra|reflexivity]. Qed.

Lemma strict_eq_Fin_true a b : a = b -> (Fin a === Fin b) = true.
Proof. intros H. cbn [strict_eq]. destruct (Req_dec_T a b); [reflexivity|contradiction]. Qed.

Lemma strict_eq_Fin_false a b : a <> b -> (Fin a === Fin b) = false.
Proof. intros H. cbn [strict_eq]. destruct (Req_dec_T a b); [contradiction|reflexivity]. Qed.

(** Decide the comparisons of reals that a goal tests, where [lra] can. *)
Ltac rdec :=
  repeat match goal with
  | |- context [Rlt_dec ?a ?b] =>
      destruct (Rlt_dec a b); try (exfalso; lra)
  | |- context [Req_dec_T ?a ?b] =>
      destruct (Req_dec_T a b); try (exfalso; lra)
  end.

(** Split on one comparison [Fin a <? Fin b] of the goal. *)
Ltac case_lt :=
  match goal with
  | |- context [Fin ?a <? Fin ?b] =>
      let H := fresh "C" in
      destruct (Rle_lt_dec b a) as [H|H];
      [ rewrite (lt_Fin_false a b H) | rewrite (lt_Fin_true a b H) ];
      try (exfalso; lra)
  end.

(** ** The colour-model converter *)

Lemma hsv2hsl_lightness h s v :
  lum_of (hsv2hsl h s v) = v - (v * s) / Fin 2.
Proof. reflexivity. Qed.

Lemma hsv2hsl_lightness_range h s v :
  (0 <= s <= 1)%R -> (0 <= v <= 1)%R ->
  lum_of (hsv2hsl h (Fin s) (Fin v)) = Fin (v - v * s / 2) /\
  (0 <= v - v * s / 2 <= 1)%R.
Proof.
  intros Hs Hv. split.
  - unfold hsv2hsl, lum_of. cbn [snd mul].
    rewrite div_Fin by lra. reflexivity.
  - split; nra.
Qed.

Lemma hsv2hsl_achromatic h v : sat_of (hsv2hsl h (Fin 0) v) = Fin 0.
Proof.
  unfold hsv2hsl, sat_of. cbn [fst snd].
  destruct v as [|s|v]; [reflexivity| |].
  - cbn [mul]. rewrite (Rzero_b_true 0 eq_refl). destruct s; reflexivity.
  - cbn [mul]. rewrite div_Fin by lra. cbn [sub add neg Math_min lt].
    rdec; cbn [truthy]; unfold Rzero_b; rdec; cbn [negb]; try reflexivity;
      cbn [div]; unfold Rzero_b; rdec; f_equal; lra.
Qed.

Lemma hsv2hsl_guard h s v :
  lum_of (hsv2hsl h s v) = Fin 0 \/ lum_of (hsv2hsl h s v) = Fin 1 ->
  sat_of (hsv2hsl h s v) = Fin 0.
Proof.
  unfold hsv2hsl, lum_of, sat_of. cbn [fst snd].
  intros [E|E]; rewrite E; cbn [sub add neg Math_min lt];
    rdec; cbn [truthy]; unfold Rzero_b; rdec; reflexivity.
Qed.

(** C7.  [hsv2hsl] computes the lightness [v - v * s / 2], which lies in
    [0, 1] whenever [s] and [v] do; with [s = 0] the saturation it returns
    is 0, whatever [v] is; and at a lightness of exactly 0 or 1 (where the
    divisor [min (l, 1 - l)] is zero) the saturation it returns is 0. *)
Theorem hsv2hsl_lightness_and_guard :
  (forall h s v, lum_of (hsv2hsl h s v) = v - (v * s) / Fin 2) /\
  (forall h s v, (0 <= s <= 1)%R -> (0 <= v <= 1)%R ->
     exists l, lum_of (hsv2hsl h (Fin s) (Fin v)) = Fin l /\
               l = (v - v * s / 2)%R /\ (0 <= l <= 1)%R) /\
  (forall h v, sat_of (hsv2hsl h (Fin 0) v) = Fin 0) /\
  (forall h s v,
     lum_of (hsv2hsl h s v) = Fin 0 \/ lum_of (hsv2hsl h s v) = Fin 1 ->
     sat_of (hsv2hsl h s v) = Fin 0).
Proof.
  split; [exact hsv2hsl_lightness|].
  split.
  { intros h s v Hs Hv.
    destruct (hsv2hsl_lightness_range h s v Hs Hv) as [E B].
    exists (v - v * s / 2)%R. repeat split; try assumption; apply B. }
  split; [exact hsv2hsl_achromatic|exact hsv2hsl_guard].
Qed.

Lemma hsv2hsl_lightness_and_guard_example :
  (exists l, lum_of (hsv2hsl (Fin 120) (Fin 0.5) (Fin 0.8)) = Fin l /\
             l = (0.8 - 0.8 * 0.5 / 2)%R /\ (0 <= l <= 1)%R) /\
  sat_of (hsv2hsl (Fin 120) (Fin 1) (Fin 0)) = Fin 0.
Proof.
  destruct hsv2hsl_lightness_and_guard as (_ & H2 & _ & H4).
  split.
  - apply (H2 (Fin 120) 0.5%R 0.8%R); lra.
  - apply (H4 (Fin 120) (Fin 1) (Fin 0)). left.
    unfold hsv2hsl, lum_of. cbn [snd mul]. rewrite div_Fin by lra.
    cbn [sub add neg]. f_equal. lra.
Defined.

(** ** The hue *)

Lemma rem_nonneg a d :
  (0 <= a)%R -> (0 < d)%R ->
  exists r, Fin a %% Fin d = Fin r /\ (0 <= r < d)%R.
Proof.
  intros Ha Hd. cbn [rem]. rewrite (Rzero_b_false d) by lra.
  unfold Rzero_b. destruct (Req_dec_T a 0) as [->|Hne].
  - exists 0%R. split; [reflexivity|lra].
  - eexists. split; [reflexivity|].
    assert (Hq : (0 <= a / d)%R).
    { apply Rmult_le_pos; [lra|]. left. apply Rinv_0_lt_compat, Hd. }
    unfold Ztrunc. destruct (Rlt_dec (a / d) 0) as [Hn|_]; [lra|].
    destruct (Zfloor_bound (a / d)) as [L U].
    assert (E : (a = d * (a / d))%R) by (field; lra).
    split.
    + assert (d * IZR (Zfloor (a / d)) <= d * (a / d))%R
        by (apply Rmult_le_compat_l; lra).
      lra.
    + assert (d * (a / d) < d * (IZR (Zfloor (a / d)) + 1))%R
        by (apply Rmult_lt_compat_l; lra).
      lra.
Qed.

Lemma hue_at_finite b i ch hc :
  centerHue b = Fin ch -> hueCycle b = Fin hc -> (0 <= total b)%Z ->
  hue_at b i =
  Fin (360 + (-180 * hc + (ch + IZR i * (360 / IZR (total b + 1)) * hc)))
  %% Fin 360.
Proof.
  intros Ec Eh Ht. unfold hue_at, of_Z. rewrite Ec, Eh.
  rewrite div_Fin; [reflexivity|].
  apply not_0_IZR. lia.
Qed.

(** C6.  With [centerHue] in [0, 360) and [hueCycle] in [0, 1], the hue
    computed at every index [i] from 1 to [total] is a number of
    [0, 360). *)
Theorem base_hue_in_range (b : Bindings) (i : Z) (ch hc : R) :
  centerHue b = Fin ch -> hueCycle b = Fin hc ->
  (0 <= ch < 360)%R -> (0 <= hc <= 1)%R ->
  (1 <= i <= total b)%Z ->
  exists h, hue_at b i = Fin h /\ (0 <= h < 360)%R.
Proof.
  intros Ec Eh Hc Hh Hi.
  rewrite (hue_at_finite b i ch hc Ec Eh) by lia.
  apply rem_nonneg; [|lra].
  assert (Hp : (0 <= IZR i * (360 / IZR (total b + 1)) * hc)%R).
  { apply Rmult_le_pos; [|lra].
    apply Rmult_le_pos; [apply IZR_le; lia|].
    apply Rmult_le_pos; [lra|]. left. apply Rinv_0_lt_compat.
    apply IZR_lt. lia. }
  lra.
Qed.

Lemma base_hue_in_range_350 :
  exists h,
    hue_at (destructure (default_total main_js) config_hue_wrap) 1 = Fin h /\
    (0 <= h < 360)%R.
Proof.
  apply (base_hue_in_range
           (destructure (default_total main_js) config_hue_wrap) 1 350 1);
    [reflexivity | reflexivity | lra | lra | cbn; lia].
Defined.

(** With [centerHue = 350], [hueCycle = 1] and [total = 1] the hue is
    [(360 + (-180 + (350 + 180))) % 360], which is 350. *)
Lemma hue_at_350 :
  hue_at (destructure (default_total main_js) config_hue_wrap) 1 = Fin 350.
Proof.
  rewrite (hue_at_finite _ 1 350 1) by (reflexivity || (cbn; lia)).
  cbn [total destructure or_default Config.total config_hue_wrap Z.add
       Pos.add Pos.succ].
  cbn [rem]. rewrite Rzero_b_false by lra. rewrite Rzero_b_false by lra.
  f_equal.
  assert (E : Ztrunc ((360 + (-180 * 1 + (350 + 1 * (360 / 2) * 1))) / 360)
              = 1%Z).
  { unfold Ztrunc.
    destruct (Rlt_dec ((360 + (-180 * 1 + (350 + 1 * (360 / 2) * 1))) / 360) 0);
      [lra|].
    apply Zfloor_eq. lra. }
  rewrite E. lra.
Qed.

(** ** The hex encoder *)

Lemma toHex_pad_hex2 z :
  (0 <= z <= 255)%Z ->
  (if (String.length (toString16_Z z) =? 1)%nat
   then ("0" ++ toString16_Z z)%string else toString16_Z z) = hex2 z.
Proof.
  intros Hz.
  assert (A : forallb
                (fun n =>
                   String.eqb
                     (if (String.length (toString16_Z (Z.of_nat n)) =? 1)%nat
                      then ("0" ++ toString16_Z (Z.of_nat n))%string
                      else toString16_Z (Z.of_nat n))
                     (hex2 (Z.of_nat n)))
                (seq 0 256) = true) by (vm_compute; reflexivity).
  rewrite forallb_forall in A.
  specialize (A (Z.to_nat z)).
  rewrite Z2Nat.id in A by lia.
  apply String.eqb_eq, A, in_seq. lia.
Qed.

Lemma toHex_rounds c z :
  (IZR z <= c * 255 + 1 / 2 < IZR z + 1)%R ->
  toHex (Fin c) =
  if (String.length (toString16_Z z) =? 1)%nat
  then ("0" ++ toString16_Z z)%string else toString16_Z z.
Proof.
  intros H. unfold toHex. cbn [mul Math_round toString16].
  rewrite ZfloorZ, (Zfloor_eq z _ H). reflexivity.
Qed.

(** A channel of [0, 1] is rendered as the two digits of the integer
    nearest to 255 times it. *)
Lemma toHex_in_gamut c :
  (0 <= c <= 1)%R ->
  exists z, (0 <= z <= 255)%Z /\
            (IZR z - 1 / 2 <= 255 * c < IZR z + 1 / 2)%R /\
            toHex (Fin c) = hex2 z.
Proof.
  intros Hc. exists (Zfloor (c * 255 + 1 / 2)).
  destruct (Zfloor_bound (c * 255 + 1 / 2)) as [L U].
  assert (Hz : (0 <= Zfloor (c * 255 + 1 / 2) <= 255)%Z).
  { split.
    - apply Zfloor_lub. lra.
    - apply Z.lt_succ_r, lt_IZR. rewrite succ_IZR. lra. }
  split; [exact Hz|]. split; [lra|].
  rewrite (toHex_rounds c _ (conj L U)). apply toHex_pad_hex2, Hz.
Qed.

Lemma calculateComponent_range p q t :
  (0 <= p)%R -> (p <= q)%R -> (q <= 1)%R -> (-1 / 3 <= t < 4 / 3)%R ->
  exists c, calculateComponent (Fin p) (Fin q) (Fin t) = Fin c /\
            (0 <= c <= 1)%R.
Proof.
  intros Hp Hpq Hq Ht. unfold calculateComponent.
  assert (E6 : Fin 1 / Fin 6 = Fin (1 / 6)) by (apply div_Fin; lra).
  assert (E2 : Fin 1 / Fin 2 = Fin (1 / 2)) by (apply div_Fin; lra).
  assert (E3 : Fin 2 / Fin 3 = Fin (2 / 3)) by (apply div_Fin; lra).
  rewrite E6, E2, E3.
  repeat (cbn [add sub neg mul]; unfold gt; case_lt);
    cbn [add sub neg mul]; eexists; (split; [reflexivity|]); split; nra.
Qed.

(** For a colour in range, the encoder returns [#] and the two-digit
    renderings of three channels of 0..255. *)
Lemma hslToHex_in_gamut h s l :
  (0 <= h < 360)%R -> (0 <= s <= 100)%R -> (0 <= l <= 100)%R ->
  exists r g b,
    (0 <= r <= 255)%Z /\ (0 <= g <= 255)%Z /\ (0 <= b <= 255)%Z /\
    hslToHex (Fin h) (Fin s) (Fin l) = ("#" ++ hex2 r ++ hex2 g ++ hex2 b)%string.
Proof.
  intros Hh Hs Hl. unfold hslToHex.
  rewrite !div_Fin by lra.
  assert (HH : (0 <= h / 360 < 1)%R) by lra.
  assert (HS : (0 <= s / 100 <= 1)%R) by lra.
  assert (HL : (0 <= l / 100 <= 1)%R) by lra.
  set (H := (h / 360)%R) in *. set (S := (s / 100)%R) in *.
  set (L := (l / 100)%R) in *.
  assert (Out : forall cr cg cb,
             (0 <= cr <= 1)%R -> (0 <= cg <= 1)%R -> (0 <= cb <= 1)%R ->
             exists r g b,
               (0 <= r <= 255)%Z /\ (0 <= g <= 255)%Z /\ (0 <= b <= 255)%Z /\
               ("#" ++ toHex (Fin cr) ++ toHex (Fin cg) ++ toHex (Fin cb))%string
               = ("#" ++ hex2 r ++ hex2 g ++ hex2 b)%string).
  { intros cr cg cb Hr Hg Hb.
    destruct (toHex_in_gamut cr Hr) as (r & Br & _ & Er).
    destruct (toHex_in_gamut cg Hg) as (g & Bg & _ & Eg).
    destruct (toHex_in_gamut cb Hb) as (b & Bb & _ & Eb).
    exists r, g, b. rewrite Er, Eg, Eb. repeat split; lia. }
  cbn [strict_eq]. destruct (Req_dec_T S 0) as [S0|S0].
  - apply Out; assumption.
  - cbn [lt add sub neg mul].
    assert (PQ : forall P Q, (0 <= P)%R -> (P <= Q)%R -> (Q <= 1)%R ->
               exists r g b,
                 (0 <= r <= 255)%Z /\ (0 <= g <= 255)%Z /\ (0 <= b <= 255)%Z /\
                 (let '(red, green, blue) :=
                    (calculateComponent (Fin P) (Fin Q) (Fin (H + 1 / 3)),
                     calculateComponent (Fin P) (Fin Q) (Fin H),
                     calculateComponent (Fin P) (Fin Q) (Fin (H + - (1 / 3))))
                  in ("#" ++ toHex red ++ toHex green ++ toHex blue)%string)
                 = ("#" ++ hex2 r ++ hex2 g ++ hex2 b)%string).
    { intros P Q HP HPQ HQ.
      destruct (calculateComponent_range P Q (H + 1 / 3) HP HPQ HQ)
        as (cr & -> & Hr); [lra|].
      destruct (calculateComponent_range P Q H HP HPQ HQ)
        as (cg & -> & Hg); [lra|].
      destruct (calculateComponent_range P Q (H + - (1 / 3)) HP HPQ HQ)
        as (cb & -> & Hb); [lra|].
      apply Out; assumption. }
    destruct (Rlt_dec L 0.5) as [L5|L5]; cbn [add sub neg mul].
    + apply PQ; nra.
    + apply PQ; nra.
Qed.

Lemma hslToHex_red : hslToHex (Fin 0) (Fin 100) (Fin 50) = "#ff0000"%string.
Proof.
  unfold hslToHex. rewrite !div_Fin by lra.
  rewrite strict_eq_Fin_false by lra.
  rewrite lt_Fin_false by lra.
  unfold calculateComponent. rewrite !div_Fin by lra.
  cbn [add sub neg mul].
  repeat first
    [ rewrite lt_Fin_true by lra
    | rewrite lt_Fin_false by lra
    | unfold gt; rewrite lt_Fin_true by lra
    | unfold gt; rewrite lt_Fin_false by lra
    | progress cbn [add sub neg mul] ].
  rewrite (toHex_rounds _ 255) by lra.
  repeat rewrite (toHex_rounds _ 0) by lra.
  reflexivity.
Qed.

Lemma hslToHex_grey h : hslToHex h (Fin 0) (Fin 50) = "#808080"%string.
Proof.
  unfold hslToHex. rewrite !div_Fin by lra.
  rewrite strict_eq_Fin_true by lra.
  rewrite (toHex_rounds _ 128) by lra.
  reflexivity.
Qed.

Lemma nearest_of_round z x :
  (IZR z - 1 / 2 <= x < IZR z + 1 / 2)%R -> nearest z x.
Proof.
  intros H. unfold nearest, slack. apply Rabs_le. lra.
Qed.

(** [calculateComponent] between [l - a] and [l + a] is the wave of the
    standard conversion, at the point [k] of the hue circle (in twelfths of
    a turn) that its argument [t] stands for. *)
Lemma calculateComponent_standard p q t l a k :
  p = (l - a)%R -> q = (l + a)%R ->
  (-1 / 3 <= t < 4 / 3)%R -> (0 <= k < 12)%R ->
  (12 * t = k + 4 \/ 12 * t = k + 4 - 12)%R ->
  calculateComponent (Fin p) (Fin q) (Fin t)
  = Fin (l - a * Rmax (-1) (Rmin (Rmin (k - 3) (9 - k)) 1)).
Proof.
  intros Ep Eq Ht Hk Htk. unfold calculateComponent.
  rewrite !div_Fin by lra.
  assert (W : forall m,
             m = Rmax (-1) (Rmin (Rmin (k - 3) (9 - k)) 1) ->
             forall c, c = (l - a * m)%R ->
             Fin c = Fin (l - a * Rmax (-1) (Rmin (Rmin (k - 3) (9 - k)) 1)))
    by (intros m <- c ->; reflexivity).
  assert (M : forall m,
             (m = -1 /\ (k <= 2 \/ 10 <= k) \/
              m = k - 3 /\ 2 <= k <= 4 \/
              m = 1 /\ 4 <= k <= 8 \/
              m = 9 - k /\ 8 <= k <= 10)%R ->
             m = Rmax (-1) (Rmin (Rmin (k - 3) (9 - k)) 1)).
  { intros m Hm. unfold Rmax, Rmin.
    repeat destruct (Rle_dec _ _); lra. }
  destruct Htk as [Htk|Htk];
  repeat (cbn [add sub neg mul]; unfold gt; case_lt);
    cbn [add sub neg mul];
    match goal with
    | |- Fin (_ + _ * 6 * ?T) = _ =>
        apply (W (1 - 12 * T)%R);
          [apply M; right; right; right; lra|subst p q; ring]
    | |- Fin (_ + _ * (2 / 3 + - ?T) * 6) = _ =>
        apply (W (12 * T - 7)%R);
          [apply M; right; left; lra|subst p q; field]
    | |- Fin _ = _ =>
        first
          [ apply (W (-1)%R);
              [apply M; left; split; [reflexivity|first [left; lra|right; lra]]
              |subst p q; ring]
          | apply (W 1%R);
              [apply M; right; right; left; lra|subst p q; ring] ]
    end.
Qed.

Lemma rgb_channel_range n h s l :
  (0 <= s <= 1)%R -> (0 <= l <= 1)%R -> (0 <= rgb_channel n h s l <= 1)%R.
Proof.
  intros Hs Hl. unfold rgb_channel.
  set (k := if Rlt_dec (n + h / 30) 12 then _ else _).
  set (m := Rmax (-1) (Rmin (Rmin (k - 3) (9 - k)) 1)).
  assert (Hm : (-1 <= m <= 1)%R).
  { unfold m, Rmax, Rmin. repeat destruct (Rle_dec _ _); lra. }
  set (a := (s * Rmin l (1 - l))%R).
  assert (Ha : (0 <= a <= l /\ a <= 1 - l)%R).
  { unfold a, Rmin. destruct (Rle_dec l (1 - l)); repeat split; nra. }
  split; nra.
Qed.

(** The channels that [hslToHex] renders are those of the standard
    conversion. *)
Lemma hslToHex_standard h s l :
  (0 <= h < 360)%R -> (0 <= s <= 100)%R -> (0 <= l <= 100)%R ->
  hslToHex (Fin h) (Fin s) (Fin l)
  = ("#" ++ toHex (Fin (rgb_channel 0 h (s / 100) (l / 100)))
         ++ toHex (Fin (rgb_channel 8 h (s / 100) (l / 100)))
         ++ toHex (Fin (rgb_channel 4 h (s / 100) (l / 100))))%string.
Proof.
  intros Hh Hs Hl. unfold hslToHex.
  rewrite !div_Fin by lra.
  set (S := (s / 100)%R). set (L := (l / 100)%R).
  assert (HS : (0 <= S <= 1)%R) by (unfold S; lra).
  assert (HL : (0 <= L <= 1)%R) by (unfold L; lra).
  cbn [strict_eq]. destruct (Req_dec_T S 0) as [S0|S0].
  - assert (E : forall n, rgb_channel n h S L = L).
    { intros n. unfold rgb_channel. rewrite S0. ring. }
    rewrite !E. reflexivity.
  - assert (C : forall P Q n t,
               P = (L - S * Rmin L (1 - L))%R ->
               Q = (L + S * Rmin L (1 - L))%R ->
               (-1 / 3 <= t < 4 / 3)%R -> (0 <= n)%R ->
               ((12 * t = n + h / 30 + 4 /\ n + h / 30 < 12) \/
                (12 * t = n + h / 30 + 4 - 12 /\ n + h / 30 < 24))%R ->
               calculateComponent (Fin P) (Fin Q) (Fin t)
               = Fin (rgb_channel n h S L)).
    { intros P Q n t EP EQ Ht Hn Hrel. unfold rgb_channel.
      destruct (Rlt_dec (n + h / 30) 12) as [K|K];
        (apply calculateComponent_standard; try assumption; [lra|]);
        destruct Hrel as [[E B]|[E B]];
        first [left; lra | right; lra]. }
    cbn [lt add sub neg mul].
    destruct (Rlt_dec L 0.5) as [L5|L5]; cbn [add sub neg mul].
    + assert (Em : Rmin L (1 - L) = L) by (apply Rmin_left; lra).
      rewrite (C _ _ 0%R (h / 360 + 1 / 3)%R),
              (C _ _ 8%R (h / 360)%R),
              (C _ _ 4%R (h / 360 + - (1 / 3))%R);
        try reflexivity; try (rewrite Em; ring); try lra;
        first [left; lra | right; lra].
    + assert (Em : Rmin L (1 - L) = (1 - L)%R) by (apply Rmin_right; lra).
      rewrite (C _ _ 0%R (h / 360 + 1 / 3)%R),
              (C _ _ 8%R (h / 360)%R),
              (C _ _ 4%R (h / 360 + - (1 / 3))%R);
        try reflexivity; try (rewrite Em; ring); try lra;
        first [left; lra | right; lra].
Qed.

(** C8.  [hslToHex(0, 100, 50)] is ["#ff0000"]; [hslToHex(h, 0, 50)] is
    ["#808080"] for every [h]; [toHex] renders a channel of [0, 1] as the
    two lowercase, zero-padded hexadecimal digits of the integer of 0..255
    nearest to 255 times it; and for a colour in range [hslToHex] returns
    [#] followed by these renderings of the red, the green and the blue
    channel of the standard conversion, each rounded to the nearest integer
    of 0..255. *)
Theorem hslToHex_examples_and_format :
  hslToHex (Fin 0) (Fin 100) (Fin 50) = "#ff0000"%string /\
  (forall h, hslToHex h (Fin 0) (Fin 50) = "#808080"%string) /\
  (forall c, (0 <= c <= 1)%R ->
     exists z, (0 <= z <= 255)%Z /\ nearest z (255 * c) /\
               toHex (Fin c) = hex2 z) /\
  (forall h s l,
     (0 <= h < 360)%R -> (0 <= s <= 100)%R -> (0 <= l <= 100)%R ->
     exists r g b,
       (0 <= r <= 255)%Z /\ (0 <= g <= 255)%Z /\ (0 <= b <= 255)%Z /\
       nearest r (255 * rgb_channel 0 h (s / 100) (l / 100)) /\
       nearest g (255 * rgb_channel 8 h (s / 100) (l / 100)) /\
       nearest b (255 * rgb_channel 4 h (s / 100) (l / 100)) /\
       hslToHex (Fin h) (Fin s) (Fin l)
       = ("#" ++ hex2 r ++ hex2 g ++ hex2 b)%string).
Proof.
  split; [exact hslToHex_red|].
  split; [exact hslToHex_grey|].
  split.
  - intros c Hc. destruct (toHex_in_gamut c Hc) as (z & Hz & Hn & E).
    exists z. split; [exact Hz|]. split; [apply nearest_of_round, Hn|exact E].
  - intros h s l Hh Hs Hl. rewrite (hslToHex_standard h s l Hh Hs Hl).
    assert (HS : (0 <= s / 100 <= 1)%R) by lra.
    assert (HL : (0 <= l / 100 <= 1)%R) by lra.
    destruct (toHex_in_gamut _ (rgb_channel_range 0 h _ _ HS HL))
      as (r & Br & Nr & ->).
    destruct (toHex_in_gamut _ (rgb_channel_range 8 h _ _ HS HL))
      as (g & Bg & Ng & ->).
    destruct (toHex_in_gamut _ (rgb_channel_range 4 h _ _ HS HL))
      as (b & Bb & Nb & ->).
    exists r, g, b.
    split; [exact Br|]. split; [exact Bg|]. split; [exact Bb|].
    split; [apply nearest_of_round, Nr|].
    split; [apply nearest_of_round, Ng|].
    split; [apply nearest_of_round, Nb|reflexivity].
Qed.

Lemma hslToHex_examples_and_format_half :
  (exists z, (0 <= z <= 255)%Z /\ nearest z (255 * 0.5) /\
             toHex (Fin 0.5) = hex2 z) /\
  (exists r g b,
     (0 <= r <= 255)%Z /\ (0 <= g <= 255)%Z /\ (0 <= b <= 255)%Z /\
     nearest r (255 * rgb_channel 0 210 (40 / 100) (60 / 100)) /\
     nearest g (255 * rgb_channel 8 210 (40 / 100) (60 / 100)) /\
     nearest b (255 * rgb_channel 4 210 (40 / 100) (60 / 100)) /\
     hslToHex (Fin 210) (Fin 40) (Fin 60)
     = ("#" ++ hex2 r ++ hex2 g ++ hex2 b)%string).
Proof.
  destruct hslToHex_examples_and_format as (_ & _ & H3 & H4).
  split.
  - apply (H3 0.5%R). lra.
  - apply (H4 210%R 40%R 60%R); lra.
Defined.

(** ** The curve sampler: the rectangle of its result *)

Lemma clamp_range x :
  x <> NaN ->
  exists c, Math_min (Math_max x (Fin 0)) (Fin 1) = Fin c /\ (0 <= c <= 1)%R.
Proof.
  intros Hx. destruct x as [|s|r]; [contradiction| |].
  - destruct s; cbn [Math_max Math_min lt negb]; rdec.
    + exists 0%R. split; [reflexivity|lra].
    + exists 1%R. split; [reflexivity|lra].
  - cbn [Math_max]. case_lt.
    + cbn [Math_min]. case_lt.
      * exists r. split; [reflexivity|lra].
      * exists 1%R. split; [reflexivity|lra].
    + cbn [Math_min]. case_lt. exists 0%R. split; [reflexivity|lra].
Qed.

Lemma remap_range l h x :
  (l <= h)%R -> x <> NaN ->
  exists r,
    Fin l + Math_min (Math_max x (Fin 0)) (Fin 1) * (Fin h - Fin l) = Fin r /\
    (l <= r <= h)%R.
Proof.
  intros Hlh Hx. destruct (clamp_range x Hx) as (c & -> & Hc).
  eexists. split; [reflexivity|]. split; nra.
Qed.

Lemma Math_pow_nonneg_base b e :
  (0 <= b)%R -> Math_pow (Fin b) (Fin e) <> NaN.
Proof.
  intros Hb. unfold Math_pow, Rzero_b.
  destruct (Req_dec_T e 0); [discriminate|].
  destruct (Req_dec_T b 0).
  - destruct (Rlt_dec 0 e); discriminate.
  - destruct (Rlt_dec 0 b); [discriminate|lra].
Qed.

(** The exponent of the superellipse, [2 / (2 + 20 * curveAccent)]: it is
    infinite at [curveAccent = -0.1], where the divisor is zero. *)
Lemma lame_exponent a :
  (Fin 2 / (Fin 2 + Fin 20 * Fin a) = Inf false /\ (2 + 20 * a = 0)%R) \/
  (exists e, Fin 2 / (Fin 2 + Fin 20 * Fin a) = Fin e /\ e <> 0%R /\
             ((-0.1 < a)%R -> (0 < e)%R)).
Proof.
  cbn [mul add div].
  destruct (Req_dec_T (2 + 20 * a) 0) as [D0|D0].
  - left. rewrite (Rzero_b_true _ D0).
    rewrite Rzero_b_false by lra. rewrite Rneg_b_false by lra.
    split; [reflexivity|exact D0].
  - right. rewrite (Rzero_b_false _ D0). eexists. split; [reflexivity|]. split.
    + unfold Rdiv. apply Rmult_integral_contrapositive_currified; [lra|].
      apply Rinv_neq_0_compat, D0.
    + intros Ha. apply Rdiv_lt_0_compat; lra.
Qed.

(** [|c| ** exp] is a finite number unless the exponent is negative at
    [c = 0], or infinite at [|c| = 1]. *)
Lemma lame_power_finite c a :
  (-0.1 < a)%R \/ (0 < c < 1)%R ->
  exists r,
    Math_pow (Math_abs (Fin c)) (Fin 2 / (Fin 2 + Fin 20 * Fin a)) = Fin r.
Proof.
  intros H. cbn [Math_abs].
  assert (A0 : (0 <= Rabs c)%R) by apply Rabs_pos.
  destruct (lame_exponent a) as [[-> D0]|(e & -> & E0 & Epos)].
  - destruct H as [H|H]; [lra|].
    unfold Math_pow. rewrite !(Rabs_right c) by lra.
    rewrite Rzero_b_false by lra.
    destruct (Rlt_dec 1 c); [lra|]. destruct (Rlt_dec c 1); [|lra].
    eexists; reflexivity.
  - unfold Math_pow. rewrite (Rzero_b_false _ E0).
    unfold Rzero_b. destruct (Req_dec_T (Rabs c) 0) as [C0|C0].
    + destruct H as [H|H].
      * destruct (Rlt_dec 0 e); [eexists; reflexivity|].
        exfalso. apply n, Epos, H.
      * rewrite Rabs_right in C0 by lra. lra.
    + destruct (Rlt_dec 0 (Rabs c)); [eexists; reflexivity|lra].
Qed.

Lemma lame_coordinate c a :
  (-0.1 < a)%R \/ (0 < c < 1)%R ->
  Math_sign (Fin c) *
  Math_pow (Math_abs (Fin c)) (Fin 2 / (Fin 2 + Fin 20 * Fin a)) <> NaN.
Proof.
  intros H. destruct (lame_power_finite c a H) as [r ->].
  cbn [Math_sign mul]. discriminate.
Qed.

Lemma remap_pair l0 l1 h0 h1 X Y :
  (l0 <= h0)%R -> (l1 <= h1)%R -> X <> NaN -> Y <> NaN ->
  exists x y,
    Ok (Fin l0 + Math_min (Math_max X (Fin 0)) (Fin 1) * (Fin h0 - Fin l0),
        Fin l1 + Math_min (Math_max Y (Fin 0)) (Fin 1) * (Fin h1 - Fin l1))
    = Ok (Fin x, Fin y) /\
    (l0 <= x <= h0)%R /\ (l1 <= y <= h1)%R.
Proof.
  intros H0 H1 HX HY.
  destruct (remap_range l0 h0 X H0 HX) as (x & -> & Bx).
  destruct (remap_range l1 h1 Y H1 HY) as (y & -> & By).
  exists x, y. repeat split; lra.
Qed.

(** Inside the quarter turn the cosine and the sine are strictly between
    0 and 1. *)
Lemma quarter_turn_interior i t :
  (0 < i < t)%R ->
  (0 < cos (i / t * (PI / 2)) < 1)%R /\ (0 < sin (i / t * (PI / 2)) < 1)%R.
Proof.
  intros H. pose proof PI_RGT_0 as HPI.
  assert (Hp : (0 < i / t < 1)%R).
  { split.
    - apply Rdiv_lt_0_compat; lra.
    - apply (Rmult_lt_reg_r t); [lra|]. unfold Rdiv.
      rewrite Rmult_assoc, Rinv_l by lra. lra. }
  assert (Ha : (0 < i / t * (PI / 2) < PI / 2)%R) by (split; nra).
  repeat split.
  - apply cos_gt_0; lra.
  - rewrite <- cos_0. apply cos_decreasing_1; lra.
  - apply sin_gt_0; lra.
  - rewrite <- sin_PI2. apply sin_increasing_1; lra.
Qed.

(** C3, as amended.  For each of the five built-in curves, every finite
    [curveAccent] (above -0.1 for ["lame"]), every [total >= 1] and every
    [i] in [0, total], and for a rectangle of the unit square
    ([0 <= min[k] <= max[k] <= 1]), both coordinates that [pointOnCurve]
    returns are numbers, at least [min[k]] and at most [max[k]] up to
    [slack], the rounding of the remapping; where [min[k]] is 0, as by
    default, the coordinate is at most [max[k]]. *)
Theorem pointOnCurve_within_bounds
    (v : jsval) (i t a : R) (mn mx : option (num * num)) (l0 l1 h0 h1 : R) :
  is_builtin v = true ->
  (1 <= t)%R -> (0 <= i <= t)%R ->
  or_default mn (Fin 0, Fin 0) = (Fin l0, Fin l1) ->
  or_default mx (Fin 1, Fin 1) = (Fin h0, Fin h1) ->
  (0 <= l0 <= h0)%R -> (h0 <= 1)%R -> (0 <= l1 <= h1)%R -> (h1 <= 1)%R ->
  (is_string v "lame" = true -> (-0.1 < a)%R) ->
  exists x y,
    pointOnCurve v (Fin i) (Fin t) (Fin a) mn mx = Ok (Fin x, Fin y) /\
    (l0 <= x <= h0 + slack)%R /\ (l1 <= y <= h1 + slack)%R /\
    (l0 = 0%R -> (x <= h0)%R) /\ (l1 = 0%R -> (y <= h1)%R).
Proof.
  intros Hb Ht Hi Emn Emx [L0 H0] U0 [L1 H1] U1 Hlame.
  assert (Out : forall X Y, X <> NaN -> Y <> NaN ->
            exists x y,
              Ok (Fin l0 + Math_min (Math_max X (Fin 0)) (Fin 1)
                           * (Fin h0 - Fin l0),
                  Fin l1 + Math_min (Math_max Y (Fin 0)) (Fin 1)
                           * (Fin h1 - Fin l1))
              = Ok (Fin x, Fin y) /\
              (l0 <= x <= h0 + slack)%R /\ (l1 <= y <= h1 + slack)%R /\
              (l0 = 0%R -> (x <= h0)%R) /\ (l1 = 0%R -> (y <= h1)%R)).
  { intros X Y HX HY.
    destruct (remap_pair l0 l1 h0 h1 X Y H0 H1 HX HY) as (x & y & E & Bx & By).
    exists x, y. split; [exact E|]. unfold slack. repeat split; lra. }
  assert (Hp : (0 <= i / t <= 1)%R).
  { split.
    - apply Rmult_le_pos; [lra|]. left. apply Rinv_0_lt_compat. lra.
    - apply (Rmult_le_reg_r t); [lra|]. unfold Rdiv.
      rewrite Rmult_assoc, Rinv_l by lra. lra. }
  unfold pointOnCurve, Math_PI. rewrite Emn, Emx. cbv zeta.
  cbn [fst snd neg]. rewrite !div_Fin by lra.
  unfold is_builtin in Hb.
  destruct (is_string v "lame") eqn:M1.
  { cbn [bind mul Math_cos Math_sin].
    apply Out; apply lame_coordinate; left; exact (Hlame eq_refl). }
  destruct (is_string v "arc") eqn:M2.
  { cbn [bind].
    apply Out; cbn [add sub neg mul Math_cos Math_sin]; discriminate. }
  destruct (is_string v "pow") eqn:M3.
  { cbn [bind].
    apply Out; cbn [add sub neg]; apply Math_pow_nonneg_base; lra. }
  destruct (is_string v "powY") eqn:M4.
  { cbn [bind].
    apply Out; cbn [add sub neg]; apply Math_pow_nonneg_base; lra. }
  destruct (is_string v "powX") eqn:M5.
  { cbn [bind].
    apply Out; cbn [add sub neg]; apply Math_pow_nonneg_base; lra. }
  discriminate Hb.
Qed.

Lemma Rpower_1_l y : Rpower 1 y = 1%R.
Proof. unfold Rpower. rewrite ln_1, Rmult_0_r. apply exp_0. Qed.

(** The superellipse at [i = 0] with [curveAccent = -1]: the exponent is
    [-1/9], so the second coordinate is [0 * (0 ** (-1/9))], that is
    [0 * Infinity]. *)
Lemma lame_raw_at_0 :
  let t := Fin (0 / 1) * Fin (PI / 2) in
  let e := Fin 2 / (Fin 2 + Fin 20 * Fin (-1)) in
  Math_sign (Math_cos t) * Math_pow (Math_abs (Math_cos t)) e = Fin 1 /\
  Math_sign (Math_sin t) * Math_pow (Math_abs (Math_sin t)) e = NaN.
Proof.
  cbv zeta. cbn [mul add Math_cos Math_sin Math_abs Math_sign].
  replace (0 / 1 * (PI / 2))%R with 0%R by lra.
  rewrite cos_0, sin_0, Rabs_R1, Rabs_R0.
  rewrite div_Fin by lra.
  unfold Math_pow. rewrite (Rzero_b_false (2 / (2 + 20 * -1))) by lra.
  rewrite (Rzero_b_false 1) by lra. rewrite (Rzero_b_true 0 eq_refl).
  rdec. rewrite Rpower_1_l. split.
  - cbn [mul]. f_equal. lra.
  - cbn [mul]. rewrite (Rzero_b_true 0 eq_refl). reflexivity.
Qed.

(** C3 as stated fails at an end of the curve:
    [pointOnCurve("lame", 0, 1, -1)] is [[1, NaN]], and [NaN] is not within
    [0, 1]. *)
Lemma pointOnCurve_lame_NaN :
  is_builtin (VString "lame") = true /\
  pointOnCurve (VString "lame") (Fin 0) (Fin 1) (Fin (-1)) None None
  = Ok (Fin 1, NaN).
Proof.
  split; [reflexivity|].
  unfold pointOnCurve, Math_PI. cbv zeta.
  change (is_string (VString "lame") "lame") with true. cbv iota.
  cbn [or_default fst snd]. rewrite !div_Fin by lra. cbn [bind].
  destruct lame_raw_at_0 as [EX EY]. cbv zeta in EX, EY.
  rewrite EX, EY. cbn [Math_max Math_min mul add sub neg].
  rewrite (lt_Fin_false 1 0) by lra. cbn [Math_min].
  rewrite (lt_Fin_false 1 1) by lra. cbn [mul add].
  replace (0 + 1 * (1 + - 0))%R with 1%R by lra. reflexivity.
Qed.

Lemma pointOnCurve_within_bounds_lame :
  exists x y,
    pointOnCurve (VString "lame") (Fin 1) (Fin 4) (Fin 0.03)
      (Some (Fin 0, Fin 0.09)) None
    = Ok (Fin x, Fin y) /\
    (0 <= x <= 1 + slack)%R /\ (0.09 <= y <= 1 + slack)%R /\
    ((0 = 0)%R -> (x <= 1)%R) /\ ((0.09 = 0)%R -> (y <= 1)%R).
Proof.
  apply (pointOnCurve_within_bounds (VString "lame") 1 4 0.03
           (Some (Fin 0, Fin 0.09)) None 0 0.09 1 1);
    [ reflexivity | lra | lra | reflexivity | reflexivity
    | lra | lra | lra | lra | ].
  intros _. lra.
Defined.

(** The bounds need an accent above -0.1 for ["lame"]: at every accent of
    -0.1 or less the first sample of the curve, at [i = 0], has a
    coordinate that is [NaN] (the exponent is infinite at -0.1, where
    [1 ** Infinity] is [NaN], and negative below, where [0 ** exp] is
    infinite and [0 * Infinity] is [NaN]). *)
Lemma lame_NaN_at_0 (t a : R) :
  (1 <= t)%R -> (a <= -0.1)%R ->
  exists x y,
    pointOnCurve (VString "lame") (Fin 0) (Fin t) (Fin a) None None
    = Ok (x, y) /\
    (x = NaN \/ y = NaN).
Proof.
  intros Ht Ha.
  unfold pointOnCurve, Math_PI. cbv zeta.
  change (is_string (VString "lame") "lame") with true. cbv iota.
  cbn [or_default fst snd]. rewrite !(div_Fin _ 2), (div_Fin 0 t) by lra.
  cbn [bind]. change (Fin (0 / t) * Fin (PI / 2)) with (Fin (0 / t * (PI / 2))).
  replace (0 / t * (PI / 2))%R with 0%R by (unfold Rdiv; ring).
  cbn [Math_cos Math_sin Math_abs Math_sign].
  rewrite cos_0, sin_0, Rabs_R1, Rabs_R0.
  destruct (Req_dec_T a (-0.1)) as [E|E].
  - assert (EE : Fin 2 / (Fin 2 + Fin 20 * Fin a) = Inf false).
    { cbn [mul add div]. rewrite (Rzero_b_true (2 + 20 * a)) by lra.
      rewrite Rzero_b_false by lra. rewrite Rneg_b_false by lra.
      reflexivity. }
    rewrite EE. unfold Math_pow at 1.
    rewrite (Rzero_b_false 1) by lra. rewrite Rabs_R1. rdec.
    do 2 eexists. split; [reflexivity|]. left.
    cbn [mul Math_max Math_min add]. reflexivity.
  - assert (Hinv : (/ (2 + 20 * a) < 0)%R) by (apply Rinv_lt_0_compat; lra).
    change (Fin 2 + Fin 20 * Fin a) with (Fin (2 + 20 * a)).
    rewrite (div_Fin 2 (2 + 20 * a)) by lra.
    assert (He : (2 / (2 + 20 * a) < 0)%R) by (unfold Rdiv; lra).
    do 2 eexists. split; [reflexivity|]. right.
    unfold Math_pow.
    rewrite (Rzero_b_false (2 / (2 + 20 * a))) by lra.
    rewrite (Rzero_b_true 0 eq_refl).
    destruct (Rlt_dec 0 (2 / (2 + 20 * a))) as [P|_]; [lra|].
    destruct (Rlt_dec 0 0) as [P|_]; [lra|].
    cbn [mul]. rewrite (Rzero_b_true 0 eq_refl).
    cbn [Math_max Math_min mul add]. reflexivity.
Qed.

(** * Further properties *)

(** ** The colour-model converter on valid colours *)

Lemma Rdiv_unit n m :
  (0 <= n <= m)%R -> (0 < m)%R -> (0 <= n / m <= 1)%R.
Proof.
  intros Hn Hm. split.
  - apply Rmult_le_pos; [lra|]. left. apply Rinv_0_lt_compat, Hm.
  - apply (Rmult_le_reg_r m); [exact Hm|]. unfold Rdiv.
    rewrite Rmult_assoc, Rinv_l by lra. lra.
Qed.

Lemma hsv2hsl_in_unit h s v :
  (0 <= s <= 1)%R -> (0 <= v <= 1)%R ->
  exists s' l,
    hsv2hsl h (Fin s) (Fin v) = (h, Fin s', Fin l) /\
    (0 <= s' <= 1)%R /\ (0 <= l <= 1)%R.
Proof.
  intros Hs Hv. unfold hsv2hsl. cbn [mul]. rewrite div_Fin by lra.
  cbn [sub add neg Math_min].
  assert (HL : (0 <= v + - (v * s / 2) <= 1)%R) by (split; nra).
  set (L := (v + - (v * s / 2))%R) in *.
  case_lt; cbn [truthy]; unfold Rzero_b.
  - destruct (Req_dec_T L 0) as [E|E]; cbn [negb].
    + exists 0%R, L. split; [reflexivity|]. split; lra.
    + cbn [div]. rewrite (Rzero_b_false _ E).
      exists ((v + - L) / L)%R, L. split; [reflexivity|].
      split; [|exact HL]. apply Rdiv_unit; [|lra]. unfold L. split; nra.
  - destruct (Req_dec_T (1 + - L) 0) as [E|E]; cbn [negb].
    + exists 0%R, L. split; [reflexivity|]. split; lra.
    + cbn [div]. rewrite (Rzero_b_false _ E).
      exists ((v + - L) / (1 + - L))%R, L. split; [reflexivity|].
      split; [|exact HL]. apply Rdiv_unit; [|lra]. unfold L. split; nra.
Qed.



(** X2.  Landmarks of the conversion: a grey (saturation 0) keeps its value
    as lightness, black (value 0) stays black whatever the saturation, and
    a pure colour (saturation 1, value 1) gets saturation 1 and lightness
    one half. *)
Theorem hsv2hsl_landmarks :
  (forall h v, hsv2hsl h (Fin 0) (Fin v) = (h, Fin 0, Fin v)) /\
  (forall h s, hsv2hsl h (Fin s) (Fin 0) = (h, Fin 0, Fin 0)) /\
  (forall h, hsv2hsl h (Fin 1) (Fin 1) = (h, Fin 1, Fin (1 / 2))).
Proof.
  split; [|split].
  - intros h v.
    assert (E : lum_of (hsv2hsl h (Fin 0) (Fin v)) = Fin v).
    { unfold hsv2hsl, lum_of. cbn [snd mul]. rewrite div_Fin by lra.
      cbn [sub add neg]. f_equal. lra. }
    pose proof (hsv2hsl_achromatic h (Fin v)) as A.
    unfold hsv2hsl, lum_of, sat_of in *. cbn [fst snd] in *.
    rewrite A, E. reflexivity.
  - intros h s.
    assert (E : lum_of (hsv2hsl h (Fin s) (Fin 0)) = Fin 0).
    { unfold hsv2hsl, lum_of. cbn [snd mul]. rewrite div_Fin by lra.
      cbn [sub add neg]. f_equal. lra. }
    pose proof (hsv2hsl_guard h (Fin s) (Fin 0) (or_introl E)) as A.
    unfold hsv2hsl, lum_of, sat_of in *. cbn [fst snd] in *.
    rewrite A, E. reflexivity.
  - intros h. unfold hsv2hsl. cbn [mul]. rewrite div_Fin by lra.
    cbn [sub add neg Math_min].
    rewrite lt_Fin_false by lra. cbn [truthy].
    rewrite Rzero_b_false by lra. cbn [negb].
    rewrite div_Fin by lra.
    match goal with
    | |- (_, Fin ?a, Fin ?b) = _ =>
        replace a with 1%R by (field; lra);
        replace b with (1 / 2)%R by lra
    end.
    reflexivity.
Qed.

(** ** The hex encoder at and beyond the edges of the gamut *)

(** Between equal components every branch of [calculateComponent] returns
    that component. *)
Lemma calculateComponent_flat p q t :
  p = q -> exists c, calculateComponent (Fin p) (Fin q) (Fin t) = Fin c /\ c = p.
Proof.
  intros <-. unfold calculateComponent. rewrite !div_Fin by lra.
  repeat (cbn [add sub neg mul]; unfold gt; case_lt);
    cbn [add sub neg mul]; eexists; (split; [reflexivity|]); ring.
Qed.

(** X3.  Lightness 0 is black and lightness 100 is white, whatever the hue
    of [0, 360) and the saturation of [0, 100]. *)
Theorem hslToHex_black_and_white (h s : R) :
  (0 <= h < 360)%R -> (0 <= s <= 100)%R ->
  hslToHex (Fin h) (Fin s) (Fin 0) = "#000000"%string /\
  hslToHex (Fin h) (Fin s) (Fin 100) = "#ffffff"%string.
Proof.
  intros _ _.
  assert (B : forall c, c = 0%R -> toHex (Fin c) = "00"%string).
  { intros c ->. rewrite (toHex_rounds _ 0) by lra. reflexivity. }
  assert (W : forall c, c = 1%R -> toHex (Fin c) = "ff"%string).
  { intros c ->. rewrite (toHex_rounds _ 255) by lra. reflexivity. }
  split.
  - unfold hslToHex. rewrite !div_Fin by lra. cbn [strict_eq].
    destruct (Req_dec_T (s / 100) 0) as [S0|S0].
    + rewrite !B by lra. reflexivity.
    + rewrite lt_Fin_true by lra. cbn [add sub neg mul].
      destruct (calculateComponent_flat
                  (2 * (0 / 100) + - (0 / 100 * (1 + s / 100)))
                  (0 / 100 * (1 + s / 100)) (h / 360 + 1 / 3))
        as (cr & -> & Er); [lra|].
      destruct (calculateComponent_flat
                  (2 * (0 / 100) + - (0 / 100 * (1 + s / 100)))
                  (0 / 100 * (1 + s / 100)) (h / 360))
        as (cg & -> & Eg); [lra|].
      destruct (calculateComponent_flat
                  (2 * (0 / 100) + - (0 / 100 * (1 + s / 100)))
                  (0 / 100 * (1 + s / 100)) (h / 360 + - (1 / 3)))
        as (cb & -> & Eb); [lra|].
      rewrite !B by lra. reflexivity.
  - unfold hslToHex. rewrite !div_Fin by lra. cbn [strict_eq].
    destruct (Req_dec_T (s / 100) 0) as [S0|S0].
    + rewrite !W by lra. reflexivity.
    + rewrite lt_Fin_false by lra. cbn [add sub neg mul].
      destruct (calculateComponent_flat
                  (2 * (100 / 100)
                   + - (100 / 100 + s / 100 + - (100 / 100 * (s / 100))))
                  (100 / 100 + s / 100 + - (100 / 100 * (s / 100)))
                  (h / 360 + 1 / 3))
        as (cr & -> & Er); [lra|].
      destruct (calculateComponent_flat
                  (2 * (100 / 100)
                   + - (100 / 100 + s / 100 + - (100 / 100 * (s / 100))))
                  (100 / 100 + s / 100 + - (100 / 100 * (s / 100)))
                  (h / 360))
        as (cg & -> & Eg); [lra|].
      destruct (calculateComponent_flat
                  (2 * (100 / 100)
                   + - (100 / 100 + s / 100 + - (100 / 100 * (s / 100))))
                  (100 / 100 + s / 100 + - (100 / 100 * (s / 100)))
                  (h / 360 + - (1 / 3)))
        as (cb & -> & Eb); [lra|].
      rewrite !W by lra. reflexivity.
Qed.

Lemma hslToHex_black_and_white_example :
  hslToHex (Fin 210) (Fin 40) (Fin 0) = "#000000"%string /\
  hslToHex (Fin 210) (Fin 40) (Fin 100) = "#ffffff"%string.
Proof.
  apply (hslToHex_black_and_white 210 40); lra.
Defined.

(** X4.  With saturation 0 the three channels are equal and the hue is not
    looked at (it can be any number, [NaN] included): for a lightness of
    [0, 100] the result is [#] and three times the rendering of the integer
    of 0..255 nearest to 2.55 times the lightness. *)
Theorem hslToHex_achromatic (h : num) (l : R) :
  (0 <= l <= 100)%R ->
  exists z,
    (0 <= z <= 255)%Z /\
    nearest z (255 * (l / 100)) /\
    hslToHex h (Fin 0) (Fin l) = ("#" ++ hex2 z ++ hex2 z ++ hex2 z)%string.
Proof.
  intros Hl. unfold hslToHex. rewrite !div_Fin by lra.
  rewrite strict_eq_Fin_true by lra.
  destruct (toHex_in_gamut (l / 100)) as (z & Hz & Hn & E); [lra|].
  exists z. rewrite E.
  split; [exact Hz|]. split; [apply nearest_of_round, Hn|reflexivity].
Qed.

Lemma hslToHex_achromatic_example :
  exists z,
    (0 <= z <= 255)%Z /\
    nearest z (255 * (20 / 100)) /\
    hslToHex NaN (Fin 0) (Fin 20) = ("#" ++ hex2 z ++ hex2 z ++ hex2 z)%string.
Proof.
  apply (hslToHex_achromatic NaN 20). lra.
Defined.

Lemma hexDigits_length fuel n acc :
  (String.length acc <= String.length (hexDigits fuel n acc))%nat.
Proof.
  revert n acc. induction fuel as [|fuel IH]; intros n acc; cbn [hexDigits].
  - lia.
  - destruct (n / 16 =? 0)%Z.
    + cbn [String.length]. lia.
    + specialize (IH (n / 16)%Z (String (hexDigit (n mod 16)) acc)).
      cbn [String.length] in IH. lia.
Qed.

Lemma hexDigits_three fuel n acc :
  (256 <= n)%Z ->
  (3 + String.length acc
   <= String.length (hexDigits (S (S (S fuel))) n acc))%nat.
Proof.
  intros Hn. cbn [hexDigits].
  assert (H1 : (n / 16 =? 0)%Z = false).
  { apply Z.eqb_neq. pose proof (Z.div_le_mono 256 n 16 ltac:(lia) Hn) as H.
    change (256 / 16)%Z with 16%Z in H. lia. }
  assert (H2 : (n / 16 / 16 =? 0)%Z = false).
  { apply Z.eqb_neq. rewrite Z.div_div by lia.
    pose proof (Z.div_le_mono 256 n (16 * 16) ltac:(lia) Hn) as H.
    change (256 / (16 * 16))%Z with 1%Z in H. lia. }
  rewrite H1, H2.
  destruct (n / 16 / 16 / 16 =? 0)%Z.
  - cbn [String.length]. lia.
  - match goal with
    | |- (_ <= String.length (hexDigits ?f ?m ?a))%nat =>
        pose proof (hexDigits_length f m a) as H
    end.
    cbn [String.length] in H. lia.
Qed.

Lemma string_length_append (s1 s2 : string) :
  String.length (s1 ++ s2) = (String.length s1 + String.length s2)%nat.
Proof.
  induction s1 as [|a s1 IH]; cbn [append String.length]; [reflexivity|].
  rewrite IH. reflexivity.
Qed.

(** X5.  [toHex] does not clamp a channel.  A channel of 1 + 1/510 or more
    (255 times it rounds to 256 or more) is rendered with three digits or
    more, and a channel below -1/510 with a minus sign, so that [hslToHex]
    returns no [#rrggbb] colour for them: a grey of lightness 101 or more
    has 10 characters or more. *)
Theorem toHex_out_of_gamut :
  (forall c, (1 + 1 / 510 <= c)%R -> (3 <= String.length (toHex (Fin c)))%nat) /\
  (forall c, (c < - (1 / 510))%R ->
     exists rest, toHex (Fin c) = String "-" rest) /\
  (forall h l, (101 <= l)%R ->
     (10 <= String.length (hslToHex h (Fin 0) (Fin l)))%nat).
Proof.
  assert (Big : forall c, (1 + 1 / 510 <= c)%R ->
                  (3 <= String.length (toHex (Fin c)))%nat).
  { intros c Hc.
    destruct (Zfloor_bound (c * 255 + 1 / 2)) as [L U].
    rewrite (toHex_rounds c _ (conj L U)).
    set (z := Zfloor (c * 255 + 1 / 2)) in *.
    assert (Hz : (256 <= z)%Z) by (apply Zfloor_lub; lra).
    assert (Hlog : (8 <= Z.log2 z)%Z).
    { change 8%Z with (Z.log2 256). apply Z.log2_le_mono, Hz. }
    assert (H3 : (3 <= String.length (toString16_Z z))%nat).
    { unfold toString16_Z.
      replace (z <? 0)%Z with false by (symmetry; apply Z.ltb_ge; lia).
      replace (S (Z.to_nat (Z.log2 z)))
        with (S (S (S (Z.to_nat (Z.log2 z) - 2)))) by lia.
      apply (hexDigits_three _ z ""%string Hz). }
    destruct (String.length (toString16_Z z)) as [|[|n]] eqn:E; [lia|lia|].
    cbn [Nat.eqb]. rewrite E. lia. }
  split; [exact Big|]. split.
  - intros c Hc.
    destruct (Zfloor_bound (c * 255 + 1 / 2)) as [L U].
    rewrite (toHex_rounds c _ (conj L U)).
    set (z := Zfloor (c * 255 + 1 / 2)) in *.
    assert (Hz : (z < 0)%Z) by (apply lt_IZR; lra).
    unfold toString16_Z.
    replace (z <? 0)%Z with true by (symmetry; apply Z.ltb_lt; lia).
    set (fuel := Z.to_nat (Z.log2 (- z))).
    pose proof (hexDigits_length fuel (- z / 16)
                  (String (hexDigit (- z mod 16)) ""%string)) as Hlen.
    cbn [hexDigits].
    destruct (- z / 16 =? 0)%Z; cbn [append String.length Nat.eqb].
    + eexists; reflexivity.
    + cbn [String.length] in Hlen.
      destruct (String.length
                  (hexDigits fuel (- z / 16)
                     (String (hexDigit (- z mod 16)) ""))) as [|n];
        [lia|]. cbn [Nat.eqb]. eexists; reflexivity.
  - intros h l Hl. unfold hslToHex. rewrite !div_Fin by lra.
    rewrite strict_eq_Fin_true by lra.
    assert (H3 := Big (l / 100)%R ltac:(lra)).
    cbn [append String.length]. rewrite !string_length_append. lia.
Qed.

Lemma toHex_out_of_gamut_example :
  (3 <= String.length (toHex (Fin 1.1)))%nat /\
  (exists rest, toHex (Fin (-0.1)) = String "-" rest) /\
  (10 <= String.length (hslToHex (Fin 30) (Fin 0) (Fin 110)))%nat.
Proof.
  destruct toHex_out_of_gamut as (H1 & H2 & H3).
  split; [apply H1; lra|]. split; [apply H2; lra|apply H3; lra].
Defined.

(** ** The curves at accent 0, and at [total = 0] *)

Lemma clamp_id c :
  (0 <= c <= 1)%R -> Math_min (Math_max (Fin c) (Fin 0)) (Fin 1) = Fin c.
Proof.
  intros Hc. cbn [Math_max]. rewrite lt_Fin_false by lra.
  cbn [Math_min]. rewrite lt_Fin_false by lra. reflexivity.
Qed.

(** The remapping into the default rectangle leaves a coordinate of
    [0, 1] as it is. *)
Lemma remap_default c :
  (0 <= c <= 1)%R ->
  Fin 0 + Math_min (Math_max (Fin c) (Fin 0)) (Fin 1) * (Fin 1 - Fin 0) = Fin c.
Proof.
  intros Hc. rewrite (clamp_id c Hc). cbn [add sub neg mul]. f_equal. lra.
Qed.

Lemma quarter_turn_closed i t :
  (1 <= t)%R -> (0 <= i <= t)%R ->
  (0 <= cos (i * (PI / 2 / t)) <= 1)%R /\ (0 <= sin (i * (PI / 2 / t)) <= 1)%R.
Proof.
  intros Ht Hi. pose proof PI_RGT_0 as HPI.
  assert (Hp : (0 <= i / t <= 1)%R) by (apply Rdiv_unit; lra).
  assert (E : (i * (PI / 2 / t) = i / t * (PI / 2))%R) by (field; lra).
  assert (Ha : (0 <= i * (PI / 2 / t) <= PI / 2)%R) by (rewrite E; split; nra).
  repeat split.
  - apply cos_ge_0; lra.
  - apply COS_bound.
  - apply sin_ge_0; lra.
  - apply SIN_bound.
Qed.

Lemma close_refl x : close x x.
Proof.
  unfold close, slack. replace (x - x)%R with 0%R by ring.
  rewrite Rabs_R0. lra.
Qed.

(** X6.  With accent 0 the curve ["arc"] is the quarter of the unit circle:
    at index [i] of [total] it returns the point of angle
    [i * (PI / 2) / total], from (1, 0) at [i = 0] to (0, 1) at
    [i = total]; the equalities are up to [slack]. *)
Theorem arc_is_quarter_circle (i t : R) :
  (1 <= t)%R -> (0 <= i <= t)%R ->
  exists x y,
    pointOnCurve (VString "arc") (Fin i) (Fin t) (Fin 0) None None
    = Ok (Fin x, Fin y) /\
    close x (cos (i * (PI / 2 / t))) /\
    close y (sin (i * (PI / 2 / t))) /\
    (Rabs (x * x + y * y - 1) <= 4 * slack)%R.
Proof.
  intros Ht Hi. destruct (quarter_turn_closed i t Ht Hi) as [Hc Hs].
  exists (cos (i * (PI / 2 / t))), (sin (i * (PI / 2 / t))).
  split; [|split; [apply close_refl|split; [apply close_refl|]]].
  - unfold pointOnCurve, Math_PI. cbv zeta.
    change (is_string (VString "arc") "lame") with false.
    change (is_string (VString "arc") "arc") with true. cbv iota.
    cbn [or_default fst snd neg bind]. rewrite !div_Fin by lra.
    cbn [add sub neg mul Math_cos Math_sin].
    replace (sin (PI / 2 + i * (PI / 2 / t) + - 0))
      with (cos (i * (PI / 2 / t)))
      by (rewrite Rtrigo1.cos_sin; f_equal; lra).
    replace (cos (- PI / 2 + i * (PI / 2 / t) + 0))
      with (sin (i * (PI / 2 / t)))
      by (rewrite <- cos_shift, <- cos_neg; f_equal; lra).
    pose proof (remap_default _ Hc) as Ex. pose proof (remap_default _ Hs) as Ey.
    cbn [add sub neg mul] in Ex, Ey. rewrite Ex, Ey. reflexivity.
  - pose proof (sin2_cos2 (i * (PI / 2 / t))) as H. unfold Rsqr in H.
    replace (cos (i * (PI / 2 / t)) * cos (i * (PI / 2 / t))
             + sin (i * (PI / 2 / t)) * sin (i * (PI / 2 / t)) - 1)%R
      with 0%R by lra.
    rewrite Rabs_R0. unfold slack. lra.
Qed.

Lemma arc_is_quarter_circle_example :
  exists x y,
    pointOnCurve (VString "arc") (Fin 1) (Fin 4) (Fin 0) None None
    = Ok (Fin x, Fin y) /\
    close x (cos (1 * (PI / 2 / 4))) /\
    close y (sin (1 * (PI / 2 / 4))) /\
    (Rabs (x * x + y * y - 1) <= 4 * slack)%R.
Proof.
  apply (arc_is_quarter_circle 1 4); lra.
Defined.

Lemma Math_pow_exponent_1 b e :
  (0 <= b)%R -> e = 1%R -> Math_pow (Fin b) (Fin e) = Fin b.
Proof.
  intros Hb ->. unfold Math_pow. rewrite (Rzero_b_false 1) by lra.
  unfold Rzero_b. destruct (Req_dec_T b 0) as [->|B0].
  - destruct (Rlt_dec 0 1); [reflexivity|lra].
  - destruct (Rlt_dec 0 b); [|lra]. rewrite Rpower_1 by lra. reflexivity.
Qed.

Lemma Math_pow_exponent_0 b e : e = 0%R -> Math_pow b (Fin e) = Fin 1.
Proof.
  intros ->. unfold Math_pow. rewrite (Rzero_b_true 0 eq_refl). reflexivity.
Qed.

(** A coordinate of the superellipse at accent 0, where the exponent is 1:
    [sign c * |c| ** 1] is [c]. *)
Lemma lame_coordinate_accent_0 c :
  (0 <= c)%R ->
  Math_sign (Fin c) *
  Math_pow (Math_abs (Fin c)) (Fin 2 / (Fin 2 + Fin 20 * Fin 0)) = Fin c.
Proof.
  intros Hc. cbn [mul add Math_abs]. rewrite div_Fin by lra.
  rewrite Rabs_right by lra.
  rewrite (Math_pow_exponent_1 c _ Hc) by (field; lra).
  cbn [Math_sign mul]. f_equal.
  destruct (Rlt_dec c 0); [lra|]. destruct (Rlt_dec 0 c); lra.
Qed.

(** X7.  With accent 0 the curve ["lame"] is the curve ["arc"]: for every
    index of [0, total] the two return the same point of the default
    rectangle, up to [slack] (the exponent of the superellipse is 1
    there). *)
Theorem lame_is_arc_at_accent_0 (i t : R) :
  (1 <= t)%R -> (0 <= i <= t)%R ->
  exists x y x' y',
    pointOnCurve (VString "lame") (Fin i) (Fin t) (Fin 0) None None
    = Ok (Fin x, Fin y) /\
    pointOnCurve (VString "arc") (Fin i) (Fin t) (Fin 0) None None
    = Ok (Fin x', Fin y') /\
    close x x' /\ close y y'.
Proof.
  intros Ht Hi. destruct (quarter_turn_closed i t Ht Hi) as [Hc Hs].
  assert (E : (i / t * (PI / 2) = i * (PI / 2 / t))%R) by (field; lra).
  pose proof (remap_default _ Hc) as Ex. pose proof (remap_default _ Hs) as Ey.
  exists (cos (i * (PI / 2 / t))), (sin (i * (PI / 2 / t))),
         (cos (i * (PI / 2 / t))), (sin (i * (PI / 2 / t))).
  split; [|split; [|split; apply close_refl]].
  - unfold pointOnCurve, Math_PI. cbv zeta.
    change (is_string (VString "lame") "lame") with true. cbv iota.
    cbn [or_default fst snd bind]. rewrite !div_Fin by lra.
    change (Fin (i / t) * Fin (PI / 2)) with (Fin (i / t * (PI / 2))).
    cbn [Math_cos Math_sin]. rewrite E.
    rewrite (lame_coordinate_accent_0 _ (proj1 Hc)).
    rewrite (lame_coordinate_accent_0 _ (proj1 Hs)).
    rewrite Ex, Ey. reflexivity.
  - unfold pointOnCurve, Math_PI. cbv zeta.
    change (is_string (VString "arc") "lame") with false.
    change (is_string (VString "arc") "arc") with true. cbv iota.
    cbn [or_default fst snd neg bind]. rewrite !div_Fin by lra.
    cbn [add sub neg mul Math_cos Math_sin].
    replace (sin (PI / 2 + i * (PI / 2 / t) + - 0))
      with (cos (i * (PI / 2 / t)))
      by (rewrite Rtrigo1.cos_sin; f_equal; lra).
    replace (cos (- PI / 2 + i * (PI / 2 / t) + 0))
      with (sin (i * (PI / 2 / t)))
      by (rewrite <- cos_shift, <- cos_neg; f_equal; lra).
    cbn [add sub neg mul] in Ex, Ey. rewrite Ex, Ey. reflexivity.
Qed.

Lemma lame_is_arc_at_accent_0_example :
  exists x y x' y',
    pointOnCurve (VString "lame") (Fin 3) (Fin 14) (Fin 0) None None
    = Ok (Fin x, Fin y) /\
    pointOnCurve (VString "arc") (Fin 3) (Fin 14) (Fin 0) None None
    = Ok (Fin x', Fin y') /\
    close x x' /\ close y y'.
Proof.
  apply (lame_is_arc_at_accent_0 3 14); lra.
Defined.

(** X8.  With accent 0 the curve ["pow"] is the straight line from (1, 0)
    to (0, 1): at index [i] of [total] it returns
    [(1 - i / total, i / total)]; ["powY"] and ["powX"] both return
    [(1, i / total)]. *)
Theorem pow_curves_at_accent_0 (i t : R) :
  (1 <= t)%R -> (0 <= i <= t)%R ->
  pointOnCurve (VString "pow") (Fin i) (Fin t) (Fin 0) None None
  = Ok (Fin (1 - i / t), Fin (i / t)) /\
  pointOnCurve (VString "powY") (Fin i) (Fin t) (Fin 0) None None
  = Ok (Fin 1, Fin (i / t)) /\
  pointOnCurve (VString "powX") (Fin i) (Fin t) (Fin 0) None None
  = Ok (Fin 1, Fin (i / t)).
Proof.
  intros Ht Hi.
  assert (Hp : (0 <= i / t <= 1)%R) by (apply Rdiv_unit; lra).
  assert (Hq : (0 <= 1 - i / t <= 1)%R) by lra.
  assert (H1 : (0 <= 1 <= 1)%R) by lra.
  repeat split.
  - unfold pointOnCurve, Math_PI. cbv zeta.
    change (is_string (VString "pow") "lame") with false.
    change (is_string (VString "pow") "arc") with false.
    change (is_string (VString "pow") "pow") with true. cbv iota.
    cbn [or_default fst snd bind]. rewrite !div_Fin by lra.
    change (Fin 1 - Fin (i / t)) with (Fin (1 - i / t)).
    change (Fin 1 - Fin 0) with (Fin (1 - 0)).
    rewrite (Math_pow_exponent_1 (1 - i / t)) by lra.
    rewrite (Math_pow_exponent_1 (i / t)) by lra.
    change (Fin (1 - 0)) with (Fin 1 - Fin 0).
    rewrite (remap_default _ Hq), (remap_default _ Hp). reflexivity.
  - unfold pointOnCurve, Math_PI. cbv zeta.
    change (is_string (VString "powY") "lame") with false.
    change (is_string (VString "powY") "arc") with false.
    change (is_string (VString "powY") "pow") with false.
    change (is_string (VString "powY") "powY") with true. cbv iota.
    cbn [or_default fst snd bind]. rewrite !div_Fin by lra.
    change (Fin 1 - Fin 0) with (Fin (1 - 0)).
    rewrite (Math_pow_exponent_0 _ 0 eq_refl).
    rewrite (Math_pow_exponent_1 (i / t)) by lra.
    change (Fin (1 - 0)) with (Fin 1 - Fin 0).
    rewrite (remap_default _ H1), (remap_default _ Hp). reflexivity.
  - unfold pointOnCurve, Math_PI. cbv zeta.
    change (is_string (VString "powX") "lame") with false.
    change (is_string (VString "powX") "arc") with false.
    change (is_string (VString "powX") "pow") with false.
    change (is_string (VString "powX") "powY") with false.
    change (is_string (VString "powX") "powX") with true. cbv iota.
    cbn [or_default fst snd bind]. rewrite !div_Fin by lra.
    change (Fin 1 - Fin 0) with (Fin (1 - 0)).
    rewrite (Math_pow_exponent_0 _ 0 eq_refl).
    rewrite (Math_pow_exponent_1 (i / t)) by lra.
    change (Fin (1 - 0)) with (Fin 1 - Fin 0).
    rewrite (remap_default _ H1), (remap_default _ Hp). reflexivity.
Qed.

Lemma pow_curves_at_accent_0_example :
  pointOnCurve (VString "pow") (Fin 1) (Fin 4) (Fin 0) None None
  = Ok (Fin (1 - 1 / 4), Fin (1 / 4)) /\
  pointOnCurve (VString "powY") (Fin 1) (Fin 4) (Fin 0) None None
  = Ok (Fin 1, Fin (1 / 4)) /\
  pointOnCurve (VString "powX") (Fin 1) (Fin 4) (Fin 0) None None
  = Ok (Fin 1, Fin (1 / 4)).
Proof.
  apply (pow_curves_at_accent_0 1 4); lra.
Defined.

Lemma remap_NaN lo hi :
  lo + Math_min (Math_max NaN (Fin 0)) (Fin 1) * (hi - lo) = NaN.
Proof. cbn [Math_max Math_min mul]. destruct lo; reflexivity. Qed.

(** X9.  [pointOnCurve] does not guard [total = 0]: the division by zero
    makes the angle infinite (or [NaN]), and ["arc"] and ["lame"] return
    [[NaN, NaN]] at every index, for every accent and rectangle. *)
Theorem circular_curves_at_total_0 (i a : R) (mn mx : option (num * num)) :
  pointOnCurve (VString "arc") (Fin i) (Fin 0) (Fin a) mn mx = Ok (NaN, NaN) /\
  pointOnCurve (VString "lame") (Fin i) (Fin 0) (Fin a) mn mx = Ok (NaN, NaN).
Proof.
  pose proof PI_RGT_0 as HPI.
  assert (P2 : Rzero_b (PI / 2) = false) by (apply Rzero_b_false; lra).
  assert (N2 : Rneg_b (PI / 2) = false) by (apply Rneg_b_false; lra).
  split.
  - unfold pointOnCurve, Math_PI. cbv zeta.
    change (is_string (VString "arc") "lame") with false.
    change (is_string (VString "arc") "arc") with true. cbv iota.
    cbn [neg]. rewrite !(div_Fin _ 2) by lra.
    cbn [div]. rewrite (Rzero_b_true 0 eq_refl), P2, N2.
    cbn [mul]. destruct (Rzero_b i);
      cbn [add sub neg Math_cos Math_sin bind]; rewrite !remap_NaN;
      reflexivity.
  - unfold pointOnCurve, Math_PI. cbv zeta.
    change (is_string (VString "lame") "lame") with true. cbv iota.
    rewrite !(div_Fin _ 2) by lra.
    cbn [div]. rewrite (Rzero_b_true 0 eq_refl).
    destruct (Rzero_b i); cbn [mul]; rewrite ?P2;
      cbn [Math_cos Math_sin Math_sign mul bind]; rewrite !remap_NaN;
      reflexivity.
Qed.

(** ** The samples that the generator takes *)

Lemma remap_between l h x :
  x <> NaN ->
  exists r,
    Fin l + Math_min (Math_max x (Fin 0)) (Fin 1) * (Fin h - Fin l) = Fin r /\
    (Rmin l h <= r <= Rmax l h)%R.
Proof.
  intros Hx. destruct (clamp_range x Hx) as (c & -> & Hc).
  eexists. split; [reflexivity|].
  destruct (Rle_dec l h) as [Hlh|Hlh].
  - rewrite Rmin_left, Rmax_right by lra. split; nra.
  - rewrite Rmin_right, Rmax_left by lra. split; nra.
Qed.

Lemma remap_pair_between l0 l1 h0 h1 X Y :
  X <> NaN -> Y <> NaN ->
  exists x y,
    Ok (Fin l0 + Math_min (Math_max X (Fin 0)) (Fin 1) * (Fin h0 - Fin l0),
        Fin l1 + Math_min (Math_max Y (Fin 0)) (Fin 1) * (Fin h1 - Fin l1))
    = Ok (Fin x, Fin y) /\
    (Rmin l0 h0 <= x <= Rmax l0 h0)%R /\ (Rmin l1 h1 <= y <= Rmax l1 h1)%R.
Proof.
  intros HX HY.
  destruct (remap_between l0 h0 X HX) as (x & -> & Bx).
  destruct (remap_between l1 h1 Y HY) as (y & -> & By).
  exists x, y. repeat split; lra.
Qed.

(** Strictly inside the curve every built-in method gives a point of the
    rectangle, whatever the (finite) accent and in whichever order the
    corners of the rectangle are given. *)
Lemma pointOnCurve_interior v i t a mn mx l0 l1 h0 h1 :
  is_builtin v = true ->
  (0 < i < t)%R ->
  or_default mn (Fin 0, Fin 0) = (Fin l0, Fin l1) ->
  or_default mx (Fin 1, Fin 1) = (Fin h0, Fin h1) ->
  exists x y,
    pointOnCurve v (Fin i) (Fin t) (Fin a) mn mx = Ok (Fin x, Fin y) /\
    (Rmin l0 h0 <= x <= Rmax l0 h0)%R /\ (Rmin l1 h1 <= y <= Rmax l1 h1)%R.
Proof.
  intros Hb Hi Emn Emx.
  assert (Hp : (0 <= i / t <= 1)%R) by (apply Rdiv_unit; lra).
  unfold pointOnCurve, Math_PI. rewrite Emn, Emx. cbv zeta.
  cbn [fst snd neg]. rewrite !div_Fin by lra.
  unfold is_builtin in Hb.
  destruct (is_string v "lame") eqn:M1.
  { cbn [bind mul Math_cos Math_sin].
    apply remap_pair_between; apply lame_coordinate; right;
      apply (quarter_turn_interior i t Hi). }
  destruct (is_string v "arc") eqn:M2.
  { cbn [bind].
    apply remap_pair_between;
      cbn [add sub neg mul Math_cos Math_sin]; discriminate. }
  destruct (is_string v "pow") eqn:M3.
  { cbn [bind].
    apply remap_pair_between;
      cbn [add sub neg]; apply Math_pow_nonneg_base; lra. }
  destruct (is_string v "powY") eqn:M4.
  { cbn [bind].
    apply remap_pair_between;
      cbn [add sub neg]; apply Math_pow_nonneg_base; lra. }
  destruct (is_string v "powX") eqn:M5.
  { cbn [bind].
    apply remap_pair_between;
      cbn [add sub neg]; apply Math_pow_nonneg_base; lra. }
  discriminate Hb.
Qed.

Lemma sample_interior b i a l0 l1 h0 h1 :
  is_builtin (curveMethod b) = true ->
  (1 <= i <= total b)%Z ->
  minSaturationLight b = (Fin l0, Fin l1) ->
  maxSaturationLight b = (Fin h0, Fin h1) ->
  exists x y,
    sample b i (Fin a) = Ok (Fin x, Fin y) /\
    (Rmin l0 h0 <= x <= Rmax l0 h0)%R /\ (Rmin l1 h1 <= y <= Rmax l1 h1)%R.
Proof.
  intros Hb Hi Emn Emx. unfold sample, of_Z.
  apply pointOnCurve_interior; try assumption.
  split; apply IZR_lt; lia.
Qed.

(** ** Hues *)

(** [a % d] when [a] is [k * d + r] with [0 <= r < d]. *)
Lemma rem_exact a d k r :
  (0 < d)%R -> (0 <= r < d)%R -> (0 <= k)%Z ->
  a = (IZR k * d + r)%R ->
  Fin a %% Fin d = Fin r.
Proof.
  intros Hd Hr Hk Ea. cbn [rem]. rewrite (Rzero_b_false d) by lra.
  assert (Hkr : (0 <= IZR k)%R) by (apply IZR_le; lia).
  unfold Rzero_b. destruct (Req_dec_T a 0) as [A0|A0].
  - f_equal. nra.
  - f_equal.
    assert (Q : (a / d = IZR k + r / d)%R) by (rewrite Ea; field; lra).
    assert (Hrd : (0 <= r / d < 1)%R).
    { split.
      - apply Rmult_le_pos; [lra|]. left. apply Rinv_0_lt_compat, Hd.
      - apply (Rmult_lt_reg_r d); [exact Hd|]. unfold Rdiv.
        rewrite Rmult_assoc, Rinv_l by lra. lra. }
    unfold Ztrunc. destruct (Rlt_dec (a / d) 0) as [N|_]; [lra|].
    rewrite (Zfloor_eq k) by lra. lra.
Qed.


(** The dividend of the hue is at least 180 when [centerHue] is not
    negative and [hueCycle] is in [0, 1]. *)
Lemma hue_dividend_positive i t ch hc :
  (0 <= ch)%R -> (0 <= hc <= 1)%R -> (1 <= i <= t)%Z ->
  (180 <= 360 + (-180 * hc + (ch + IZR i * (360 / IZR (t + 1)) * hc)))%R.
Proof.
  intros Hc Hh Hi.
  assert (Hp : (0 <= IZR i * (360 / IZR (t + 1)) * hc)%R).
  { apply Rmult_le_pos; [|lra].
    apply Rmult_le_pos; [apply IZR_le; lia|].
    apply Rmult_le_pos; [lra|]. left. apply Rinv_0_lt_compat.
    apply IZR_lt. lia. }
  lra.
Qed.

Lemma hue_at_in_range b i ch hc :
  centerHue b = Fin ch -> hueCycle b = Fin hc ->
  (0 <= ch)%R -> (0 <= hc <= 1)%R -> (1 <= i <= total b)%Z ->
  exists h, hue_at b i = Fin h /\ (0 <= h < 360)%R.
Proof.
  intros Ec Eh Hc Hh Hi.
  rewrite (hue_at_finite b i ch hc Ec Eh) by lia.
  apply rem_nonneg; [|lra].
  pose proof (hue_dividend_positive i (total b) ch hc Hc Hh Hi). lra.
Qed.



(** With [centerHue = -400] and [hueCycle = 0] the hue is
    [(360 - 400) % 360], which is -40. *)
Lemma hue_at_minus_40 :
  hue_at (destructure (default_total main_js) config_negative_hue) 1
  = Fin (-40).
Proof.
  rewrite (hue_at_finite _ 1 (-400) 0) by (reflexivity || (cbn; lia)).
  cbn [total destructure or_default Config.total config_negative_hue].
  set (D := (360 + (-180 * 0 + (-400 + 1 * (360 / IZR (3 + 1)) * 0)))%R).
  assert (ED : D = (-40)%R) by (unfold D; lra).
  cbn [rem]. rewrite Rzero_b_false by lra. rewrite Rzero_b_false by lra.
  f_equal.
  assert (E : Ztrunc (D / 360) = 0%Z).
  { unfold Ztrunc. destruct (Rlt_dec (D / 360) 0) as [_|N]; [|lra].
    rewrite (Zfloor_eq 0) by lra. reflexivity. }
  rewrite E. lra.
Qed.

Lemma hue_of_tint b h c :
  hue_of (tint_of b h c) = (h + Fin 360 * tintShadeHueShift b) %% Fin 360.
Proof. reflexivity. Qed.

Lemma hue_of_shade b h c :
  hue_of (shade_of b h c)
  = (Fin 360 + (h - Fin 360 * tintShadeHueShift b)) %% Fin 360.
Proof. reflexivity. Qed.

(** X12.  With [hueCycle = 0] the ramp is monochrome: for a [centerHue] of
    [0, 360) every base colour of the returned ramp has the same hue, a
    number of [0, 360) that is [centerHue] up to [slack] (or, for a
    [centerHue] at the very end of the range, that hue less a full
    turn). *)
Theorem monochrome_ramp (f : copy) (c : Config.t) (r : Ramp) (ch : R) :
  let b := destructure (default_total f) c in
  generateRandomColorRamp f c = Ok r ->
  centerHue b = Fin ch -> hueCycle b = Fin 0 -> (0 <= ch < 360)%R ->
  exists h,
    (0 <= h < 360)%R /\ (close h ch \/ close h (ch - 360)) /\
    forall i, (1 <= i <= total b)%Z ->
      exists cb, nth_error (base r) (Z.to_nat (i - 1)) = Some cb /\
                 hue_of cb = Fin h.
Proof.
  intros b E Ec Eh Hc. exists ch.
  split; [exact Hc|]. split; [left; apply close_refl|].
  intros i Hi. unfold generateRandomColorRamp in E. fold b in E.
  destruct (generate_spec b r E) as (_ & _ & _ & _ & Hk).
  destruct (Hk i Hi) as (cb & cl & cd & Hp & Nb & _ & _).
  destruct Hp as (x & y & _ & _ & _ & _ & _ & _ & _ & -> & _ & _).
  eexists. split; [exact Nb|]. rewrite hue_of_hsv2hsx.
  rewrite (hue_at_finite b i ch 0 Ec Eh) by lia.
  apply (rem_exact _ 360 1 ch); [lra|lra|lia|]. lra.
Qed.

Lemma monochrome_ramp_demo :
  exists r,
    generateRandomColorRamp main_js colorPaletteConfig = Ok r /\
    exists h,
      (0 <= h < 360)%R /\ (close h 0 \/ close h (0 - 360)) /\
      forall i,
        (1 <= i <= total (destructure (default_total main_js)
                            colorPaletteConfig))%Z ->
        exists cb, nth_error (base r) (Z.to_nat (i - 1)) = Some cb /\
                   hue_of cb = Fin h.
Proof.
  destruct (generate_builtin
              (destructure (default_total main_js) colorPaletteConfig) eq_refl)
    as [r E].
  exists r. split; [exact E|].
  apply (monochrome_ramp main_js colorPaletteConfig r 0 E eq_refl eq_refl).
  lra.
Defined.

(** X13.  With [centerHue] in [0, 360), [hueCycle] in [0, 1] and
    [tintShadeHueShift] in [0, 1], the hue of every tint and of every shade
    of the returned ramp is a number of [0, 360), as the hue of the base
    colour is. *)
Theorem tint_and_shade_hues_in_range
    (f : copy) (c : Config.t) (r : Ramp) (ch hc sh : R) :
  let b := destructure (default_total f) c in
  generateRandomColorRamp f c = Ok r ->
  centerHue b = Fin ch -> hueCycle b = Fin hc ->
  tintShadeHueShift b = Fin sh ->
  (0 <= ch < 360)%R -> (0 <= hc <= 1)%R -> (0 <= sh <= 1)%R ->
  forall i, (1 <= i <= total b)%Z ->
    exists cl cd hl hd,
      nth_error (light r) (Z.to_nat (i - 1)) = Some cl /\
      nth_error (dark r) (Z.to_nat (i - 1)) = Some cd /\
      hue_of cl = Fin hl /\ (0 <= hl < 360)%R /\
      hue_of cd = Fin hd /\ (0 <= hd < 360)%R.
Proof.
  intros b E Ec Eh Es Hc Hh Hs i Hi.
  unfold generateRandomColorRamp in E. fold b in E.
  destruct (generate_spec b r E) as (_ & _ & _ & _ & Hk).
  destruct (Hk i Hi) as (cb & cl & cd & Hp & _ & Nl & Nd).
  destruct Hp as (x & y & xl & yl & xd & yd & _ & _ & _ & _ & -> & ->).
  destruct (hue_at_in_range b i ch hc Ec Eh (proj1 Hc) Hh Hi) as (h & Eq & Bh).
  rewrite Eq in Nl, Nd.
  destruct (rem_nonneg (h + 360 * sh) 360) as (hl & El & Bl); [nra|lra|].
  destruct (rem_nonneg (360 + (h + - (360 * sh))) 360) as (hd & Ed & Bd);
    [nra|lra|].
  do 2 eexists. exists hl, hd.
  split; [exact Nl|]. split; [exact Nd|].
  rewrite hue_of_tint, hue_of_shade, Es. cbn [add sub neg mul].
  rewrite El, Ed. repeat split; lra.
Qed.

Lemma tint_and_shade_hues_in_range_default :
  exists r,
    generateRandomColorRamp main_js config_total3 = Ok r /\
    exists cl cd hl hd,
      nth_error (light r) 2 = Some cl /\
      nth_error (dark r) 2 = Some cd /\
      hue_of cl = Fin hl /\ (0 <= hl < 360)%R /\
      hue_of cd = Fin hd /\ (0 <= hd < 360)%R.
Proof.
  destruct (generate_builtin
              (destructure (default_total main_js) config_total3) eq_refl)
    as [r E].
  exists r. split; [exact E|].
  apply (tint_and_shade_hues_in_range main_js config_total3 r 0 0.3 0.1 E
           eq_refl eq_refl eq_refl ltac:(lra) ltac:(lra) ltac:(lra) 3%Z).
  cbn. lia.
Defined.

(** ** Ramps without offsets *)

Lemma num_add_0_r (x : num) : x + Fin 0 = x.
Proof. destruct x as [|s|r]; cbn [add]; [reflexivity|reflexivity|]. f_equal. lra. Qed.

Lemma num_sub_0_r (x : num) : x - Fin 0 = x.
Proof. destruct x as [|s|r]; cbn [sub add neg]; [reflexivity|reflexivity|]. f_equal. lra. Qed.

Lemma Color_eta (c : Color) : (hue_of c, sat_of c, lum_of c) = c.
Proof. destruct c as [[h s] l]. reflexivity. Qed.

(** X14.  With the three offsets of the tints at 0 ([offsetTint],
    [tintShadeHueShift], [offsetCurveModTint]) and the hue in range
    ([centerHue] in [0, 360), [hueCycle] in [0, 1]), the tints of the
    returned ramp are the base colours: [light] and [base] are equal. *)
Theorem ramp_without_tint_offsets
    (f : copy) (c : Config.t) (r : Ramp) (ch hc : R) :
  let b := destructure (default_total f) c in
  generateRandomColorRamp f c = Ok r ->
  offsetTint b = Fin 0 -> tintShadeHueShift b = Fin 0 ->
  offsetCurveModTint b = Fin 0 ->
  centerHue b = Fin ch -> hueCycle b = Fin hc ->
  (0 <= ch < 360)%R -> (0 <= hc <= 1)%R ->
  light r = base r.
Proof.
  intros b E Ot Sh Ct Ec Eh Hc Hh.
  unfold generateRandomColorRamp in E. fold b in E.
  destruct (generate_spec b r E) as (Lb & Ll & _ & _ & Hk).
  apply nth_error_ext. intros n.
  destruct (Nat.lt_ge_cases n (Z.to_nat (total b))) as [Hn|Hn].
  - assert (Hi : (1 <= Z.of_nat n + 1 <= total b)%Z) by lia.
    destruct (Hk _ Hi) as (cb & cl & cd & Hp & Nb & Nl & _).
    replace (Z.to_nat (Z.of_nat n + 1 - 1)) with n in Nb, Nl by lia.
    destruct Hp as (x & y & xl & yl & xd & yd & S1 & S2 & _ & -> & -> & _).
    rewrite Ct, num_add_0_r, S1 in S2. injection S2 as <- <-.
    destruct (hue_at_in_range b _ ch hc Ec Eh (proj1 Hc) Hh Hi)
      as (h & Eq & Bh).
    rewrite Nb, Nl. unfold tint_of.
    rewrite Ot, Sh, !num_sub_0_r, !num_add_0_r.
    set (col := hsv2hsx (hue_at b (Z.of_nat n + 1)) x y (colorModel b)).
    assert (Hcol : hue_of col = hue_at b (Z.of_nat n + 1))
      by apply hue_of_hsv2hsx.
    rewrite Eq in *. cbn [add sub neg mul].
    rewrite (rem_exact (h + 360 * 0) 360 0 h) by (lra || lia).
    rewrite <- Hcol, Color_eta. reflexivity.
  - assert (N : forall l : list Color,
               List.length l = Z.to_nat (total b) -> nth_error l n = None).
    { intros l Hl. apply nth_error_None. lia. }
    rewrite (N _ Lb), (N _ Ll). reflexivity.
Qed.

Lemma ramp_without_tint_offsets_example :
  exists r,
    generateRandomColorRamp main_js
      (Config.make (Some 5%Z) (Some (Fin 200)) (Some (Fin 0.5))
         (Some (Fin 0)) None None (Some (Fin 0)) None
         (Some (Fin 0)) None None None None) = Ok r /\
    light r = base r.
Proof.
  set (c := Config.make _ _ _ _ _ _ _ _ _ _ _ _ _).
  destruct (generate_builtin (destructure (default_total main_js) c) eq_refl)
    as [r E].
  exists r. split; [exact E|].
  apply (ramp_without_tint_offsets main_js c r 200 0.5 E); try reflexivity; lra.
Defined.

(** ** Base colours and their swatches *)

Lemma pointOnCurve_Ok_builtin v i t a mn mx p :
  pointOnCurve v i t a mn mx = Ok p -> is_builtin v = true.
Proof.
  intros H. destruct (is_builtin v) eqn:B; [reflexivity|].
  rewrite (pointOnCurve_not_builtin v i t a mn mx B) in H.
  destruct (is_string v "function"); discriminate H.
Qed.

Lemma hsv2hsx_valid h s v m :
  (0 <= s <= 1)%R -> (0 <= v <= 1)%R ->
  exists s' l, hsv2hsx h (Fin s) (Fin v) m = (h, Fin s', Fin l) /\
               (0 <= s' <= 1)%R /\ (0 <= l <= 1)%R.
Proof.
  intros Hs Hv. unfold hsv2hsx. destruct (is_string m "hsl").
  - apply hsv2hsl_in_unit; assumption.
  - exists s, v. split; [reflexivity|]. split; assumption.
Qed.

(** The base colour of index [i], when the rectangle is within the unit
    square and the hue is in range. *)
Lemma base_entry_valid b r a ch hc l0 l1 h0 h1 i :
  generate b = Ok r ->
  curveAccent b = Fin a ->
  minSaturationLight b = (Fin l0, Fin l1) ->
  maxSaturationLight b = (Fin h0, Fin h1) ->
  (0 <= l0 <= 1)%R -> (0 <= l1 <= 1)%R ->
  (0 <= h0 <= 1)%R -> (0 <= h1 <= 1)%R ->
  centerHue b = Fin ch -> hueCycle b = Fin hc ->
  (0 <= ch < 360)%R -> (0 <= hc <= 1)%R ->
  (1 <= i <= total b)%Z ->
  exists h s l,
    nth_error (base r) (Z.to_nat (i - 1)) = Some (Fin h, Fin s, Fin l) /\
    (0 <= h < 360)%R /\ (0 <= s <= 1)%R /\ (0 <= l <= 1)%R.
Proof.
  intros E Ea Emn Emx B0 B1 B2 B3 Ec Eh Hc Hh Hi.
  destruct (generate_spec b r E) as (_ & _ & _ & _ & Hk).
  destruct (Hk i Hi) as (cb & cl & cd & Hp & Nb & _ & _).
  destruct Hp as (x & y & _ & _ & _ & _ & S1 & _ & _ & -> & _ & _).
  assert (Hb : is_builtin (curveMethod b) = true)
    by (unfold sample in S1; apply (pointOnCurve_Ok_builtin _ _ _ _ _ _ _ S1)).
  rewrite Ea in S1.
  destruct (sample_interior b i a l0 l1 h0 h1 Hb Hi Emn Emx)
    as (x' & y' & S1' & Bx & By).
  rewrite S1' in S1. injection S1 as <- <-.
  destruct (hue_at_in_range b i ch hc Ec Eh (proj1 Hc) Hh Hi) as (h & Eq & Bh).
  rewrite Eq in Nb.
  assert (Hx : (0 <= x' <= 1)%R).
  { pose proof (Rmin_glb l0 h0 0 (proj1 B0) (proj1 B2)).
    pose proof (Rmax_lub l0 h0 1 (proj2 B0) (proj2 B2)). lra. }
  assert (Hy : (0 <= y' <= 1)%R).
  { pose proof (Rmin_glb l1 h1 0 (proj1 B1) (proj1 B3)).
    pose proof (Rmax_lub l1 h1 1 (proj2 B1) (proj2 B3)). lra. }
  destruct (hsv2hsx_valid (Fin h) x' y' (colorModel b) Hx Hy)
    as (s & l & Ecol & Bs & Bl).
  rewrite Ecol in Nb. exists h, s, l. repeat split; try assumption; lra.
Qed.



Lemma hexColor_valid h s l :
  (0 <= h < 360)%R -> (0 <= s <= 1)%R -> (0 <= l <= 1)%R ->
  exists r g b,
    (0 <= r <= 255)%Z /\ (0 <= g <= 255)%Z /\ (0 <= b <= 255)%Z /\
    hexColor (Fin h, Fin s, Fin l) = ("#" ++ hex2 r ++ hex2 g ++ hex2 b)%string.
Proof.
  intros Hh Hs Hl. unfold hexColor. cbn [mul].
  apply hslToHex_in_gamut; [assumption|split; nra|split; nra].
Qed.

(** X16.  Under the same conditions the colour string that the page
    computes for the swatch of every base colour is well formed: [#] and
    three channels of 0..255, each as two lowercase hexadecimal digits. *)
Theorem base_swatches_are_well_formed
    (f : copy) (c : Config.t) (r : Ramp) (a ch hc l0 l1 h0 h1 : R) :
  let b := destructure (default_total f) c in
  generateRandomColorRamp f c = Ok r ->
  curveAccent b = Fin a ->
  minSaturationLight b = (Fin l0, Fin l1) ->
  maxSaturationLight b = (Fin h0, Fin h1) ->
  (0 <= l0 <= 1)%R -> (0 <= l1 <= 1)%R ->
  (0 <= h0 <= 1)%R -> (0 <= h1 <= 1)%R ->
  centerHue b = Fin ch -> hueCycle b = Fin hc ->
  (0 <= ch < 360)%R -> (0 <= hc <= 1)%R ->
  forall i, (1 <= i <= total b)%Z ->
    exists cb red green blue,
      nth_error (base r) (Z.to_nat (i - 1)) = Some cb /\
      (0 <= red <= 255)%Z /\ (0 <= green <= 255)%Z /\ (0 <= blue <= 255)%Z /\
      hexColor cb = ("#" ++ hex2 red ++ hex2 green ++ hex2 blue)%string.
Proof.
  intros b E Ea Emn Emx B0 B1 B2 B3 Ec Eh Hc Hh i Hi.
  destruct (base_entry_valid b r a ch hc l0 l1 h0 h1 i E Ea Emn Emx
              B0 B1 B2 B3 Ec Eh Hc Hh Hi) as (h & s & l & N & Bh & Bs & Bl).
  destruct (hexColor_valid h s l Bh Bs Bl) as (red & green & blue & H).
  exists (Fin h, Fin s, Fin l), red, green, blue.
  split; [exact N|exact H].
Qed.

Lemma base_swatches_are_well_formed_demo :
  exists r,
    generateRandomColorRamp main_js colorPaletteConfig = Ok r /\
    exists cb red green blue,
      nth_error (base r) 12 = Some cb /\
      (0 <= red <= 255)%Z /\ (0 <= green <= 255)%Z /\ (0 <= blue <= 255)%Z /\
      hexColor cb = ("#" ++ hex2 red ++ hex2 green ++ hex2 blue)%string.
Proof.
  destruct (generate_builtin
              (destructure (default_total main_js) colorPaletteConfig) eq_refl)
    as [r E].
  exists r. split; [exact E|].
  apply (base_swatches_are_well_formed main_js colorPaletteConfig r
           0.03 0 0 0 0.09 1 1 E eq_refl eq_refl eq_refl
           ltac:(lra) ltac:(lra) ltac:(lra) ltac:(lra) eq_refl eq_refl
           ltac:(lra) ltac:(lra) 13%Z).
  cbn. lia.
Defined.

(** ** Layout of the result, errors, and the modified palette *)

(** X17.  In the returned ramp the [i]-th base colour is the conversion of
    the sample of the curve at [curveAccent] with the hue of index [i], and
    [all] lays the three sequences out one after the other: its entries
    [i], [total + i] and [2 * total + i] (counted from 1) are the [i]-th
    tint, base colour and shade. *)
Theorem base_entries_and_layout (f : copy) (c : Config.t) (r : Ramp) :
  let b := destructure (default_total f) c in
  generateRandomColorRamp f c = Ok r ->
  forall i, (1 <= i <= total b)%Z ->
    exists x y cb cl cd,
      pointOnCurve (curveMethod b) (of_Z i) (of_Z (total b + 1))
        (curveAccent b)
        (Some (minSaturationLight b)) (Some (maxSaturationLight b))
      = Ok (x, y) /\
      cb = hsv2hsx (hue_at b i) x y (colorModel b) /\
      nth_error (base r) (Z.to_nat (i - 1)) = Some cb /\
      nth_error (light r) (Z.to_nat (i - 1)) = Some cl /\
      nth_error (dark r) (Z.to_nat (i - 1)) = Some cd /\
      nth_error (all r) (Z.to_nat (i - 1)) = Some cl /\
      nth_error (all r) (Z.to_nat (total b + i - 1)) = Some cb /\
      nth_error (all r) (Z.to_nat (2 * total b + i - 1)) = Some cd.
Proof.
  intros b E i Hi. unfold generateRandomColorRamp in E. fold b in E.
  destruct (generate_spec b r E) as (Lb & Ll & Ld & Ha & Hk).
  destruct (Hk i Hi) as (cb & cl & cd & Hp & Nb & Nl & Nd).
  destruct Hp as (x & y & _ & _ & _ & _ & S1 & _ & _ & Ecb & _ & _).
  exists x, y, cb, cl, cd.
  split; [exact S1|]. split; [exact Ecb|].
  split; [exact Nb|]. split; [exact Nl|]. split; [exact Nd|].
  rewrite Ha. split; [|split].
  - rewrite nth_error_app1 by lia. exact Nl.
  - rewrite nth_error_app2 by lia. rewrite nth_error_app1 by lia.
    rewrite <- Nb. f_equal. lia.
  - rewrite nth_error_app2 by lia. rewrite nth_error_app2 by lia.
    rewrite <- Nd. f_equal. lia.
Qed.

Lemma base_entries_and_layout_total3 :
  exists r,
    generateRandomColorRamp main_js config_total3 = Ok r /\
    exists x y cb cl cd,
      pointOnCurve (VString "arc") (of_Z 2) (of_Z 4) (Fin 0)
        (Some (Fin 0, Fin 0)) (Some (Fin 1, Fin 1))
      = Ok (x, y) /\
      cb = hsv2hsx
             (hue_at (destructure (default_total main_js) config_total3) 2)
             x y (VString "hsl") /\
      nth_error (base r) 1 = Some cb /\
      nth_error (light r) 1 = Some cl /\
      nth_error (dark r) 1 = Some cd /\
      nth_error (all r) 1 = Some cl /\
      nth_error (all r) 4 = Some cb /\
      nth_error (all r) 7 = Some cd.
Proof.
  destruct (generate_builtin
              (destructure (default_total main_js) config_total3) eq_refl)
    as [r E].
  exists r. split; [exact E|].
  apply (base_entries_and_layout main_js config_total3 r E 2%Z). cbn. lia.
Defined.

(** X18.  When [total] is at least 1 and [curveMethod] is the string
    ["function"], the generator fails with a [TypeError], not with the
    error of an unsupported method: the string matches the label of the
    [switch], and the case then calls it. *)
Theorem function_string_is_a_TypeError (f : copy) (c : Config.t) :
  let b := destructure (default_total f) c in
  curveMethod b = VString "function" ->
  (1 <= total b)%Z ->
  generateRandomColorRamp f c = Throw TypeError.
Proof.
  intros b Em Ht. unfold generateRandomColorRamp. fold b.
  rewrite generate_not_builtin; [|rewrite Em; reflexivity|exact Ht].
  rewrite Em. reflexivity.
Qed.

Lemma function_string_is_a_TypeError_total3 :
  generateRandomColorRamp main_js
    (config (Some 3%Z) (Some (VString "function"))) = Throw TypeError.
Proof.
  apply (function_string_is_a_TypeError main_js
           (config (Some 3%Z) (Some (VString "function"))));
    [reflexivity|cbn; lia].
Defined.

Lemma at_last_app {A : Type} (l : list A) (x : A) : at_last (l ++ [x]) = Some x.
Proof. unfold at_last. rewrite rev_app_distr. reflexivity. Qed.

Lemma at_last_None {A : Type} (l : list A) : at_last l = None -> l = [].
Proof.
  unfold at_last. intros H. destruct (rev l) eqn:E; [|discriminate H].
  rewrite <- (rev_involutive l), E. reflexivity.
Qed.

Lemma at_last_Some {A : Type} (l : list A) (x : A) :
  at_last l = Some x -> exists l', l = l' ++ [x].
Proof.
  unfold at_last. intros H. destruct (rev l) as [|y t] eqn:E; [discriminate H|].
  injection H as ->. exists (rev t).
  rewrite <- (rev_involutive l), E. reflexivity.
Qed.

(** X19.  [colorPaletteModified] appends four tonal colours to the tints of
    the ramp, each with the hue of the last tint, saturation 1 and
    lightness 0.9, 0.95, 0.98 and 1; [base], [dark] and [all] stay as they
    were, so [all] no longer is [light ++ base ++ dark].  On a ramp
    without tints it fails with a [TypeError]. *)
Theorem colorPaletteModified_appends_tonal_values (r : Ramp) :
  (light r = [] -> colorPaletteModified r = Throw TypeError) /\
  (forall tints lastElement,
     light r = tints ++ [lastElement] ->
     exists r',
       colorPaletteModified r = Ok r' /\
       light r' =
       light r ++ [ (hue_of lastElement, Fin 1, Fin 0.9);
                    (hue_of lastElement, Fin 1, Fin 0.95);
                    (hue_of lastElement, Fin 1, Fin 0.98);
                    (hue_of lastElement, Fin 1, Fin 1) ] /\
       base r' = base r /\ dark r' = dark r /\ all r' = all r /\
       (all r = light r ++ base r ++ dark r ->
        all r' <> light r' ++ base r' ++ dark r')).
Proof.
  split.
  - intros E. unfold colorPaletteModified. rewrite E. reflexivity.
  - intros tints lastElement E. unfold colorPaletteModified.
    rewrite E, at_last_app. cbn [fold_left]. rewrite <- !app_assoc.
    cbn [app]. eexists. split; [reflexivity|].
    cbn [light base dark all]. rewrite <- !app_assoc. cbn [app].
    repeat split.
    + f_equal. f_equal. repeat (f_equal; try lra).
    + intros Ha Hb. rewrite Ha in Hb.
      apply (f_equal (@List.length Color)) in Hb.
      rewrite !length_app in Hb. cbn [List.length] in Hb. lia.
Qed.

Lemma colorPaletteModified_appends_tonal_values_demo :
  exists r r',
    generateRandomColorRamp main_js colorPaletteConfig = Ok r /\
    colorPaletteModified r = Ok r' /\
    List.length (light r') = 17%nat /\
    List.length (base r') = 13%nat /\
    List.length (dark r') = 13%nat /\
    List.length (all r') = 39%nat.
Proof.
  set (b := destructure (default_total main_js) colorPaletteConfig).
  destruct (generate_builtin b eq_refl) as [r E].
  destruct (generate_spec b r E) as (Lb & Ll & Ld & Ha & _).
  change (Z.to_nat (total b)) with 13%nat in Lb, Ll, Ld.
  assert (Hne : light r <> []).
  { intros H. rewrite H in Ll. discriminate Ll. }
  destruct (exists_last Hne) as (tints & lastElement & El).
  destruct (colorPaletteModified_appends_tonal_values r) as [_ H].
  destruct (H tints lastElement El) as (r' & Er & L' & B' & D' & A' & _).
  exists r, r'. split; [exact E|]. split; [exact Er|].
  rewrite L', B', D', A', Ha, !length_app, Lb, Ll, Ld.
  repeat split.
Defined.
